(** * Combination handler and system key mapping: a shallow embedding

    The first part embeds
    [inputremapper/injection/mapping_handlers/combination_handler.py]
    (class [CombinationHandler]); the second part embeds
    [SystemMapping.get_or_allocate] of [keymapper/state.py].

    Python objects become records, attribute assignment becomes a state
    update in a small state/output/exception monad, and every call that
    leaves the handler (the sub-handler, a forwarding uinput, the error
    log) is recorded in the output of the computation. The collaborators
    are taken to return normally; debug logging is not recorded.

    All definitions come first, the properties follow. *)

From stdpp Require Import gmap strings list fin_maps.

#[local] Set Warnings "-clear-no-such-hyp".

Open Scope Z_scope.

(** ** Python values shared by both parts *)

Inductive PyException : Type :=
  | AssertionError
  | GenericException (msg : string).

Inductive Result (A : Type) : Type :=
  | Ok (a : A)
  | Raise (e : PyException).
Arguments Ok {A} a.
Arguments Raise {A} e.

(** Truthiness of the result of [dict.get] on a dictionary of booleans:
  [None] and [False] are falsy. *)
Definition truthy (o : option bool) : bool :=
  match o with
  | Some b => b
  | None => false
  end.

(** ** The event value model

  [InputEvent] and [InputConfig] live outside the embedded file. Only the
  attributes [CombinationHandler] reads are kept; [input_match_hash] is an
  opaque hashable value, [type_and_code] is the pair of the two fields. *)

Module InputEvent.
Record t (Hash : Type) : Type := mk {
  type : Z;
  code : Z;
  value : Z;
  input_match_hash : Hash
  }.
Arguments mk {Hash} _ _ _ _.
Arguments type {Hash} _.
Arguments code {Hash} _.
Arguments value {Hash} _.
Arguments input_match_hash {Hash} _.

Definition type_and_code {Hash} (e : t Hash) : Z * Z := (type e, code e).
End InputEvent.

Module InputConfig.
Record t (Hash Origin : Type) : Type := mk {
  type : Z;
  code : Z;
  defines_analog_input : bool;
  origin_hash : option Origin;
  input_match_hash : Hash
  }.
Arguments mk {Hash Origin} _ _ _ _ _.
Arguments type {Hash Origin} _.
Arguments code {Hash Origin} _.
Arguments defines_analog_input {Hash Origin} _.
Arguments origin_hash {Hash Origin} _.
Arguments input_match_hash {Hash Origin} _.

Definition type_and_code {Hash Origin} (c : t Hash Origin) : Z * Z :=
  (type c, code c).
End InputConfig.

Module Mapping.
Record t (Hash Origin : Type) : Type := mk {
  input_combination : list (InputConfig.t Hash Origin);
  release_combination_keys : bool
  }.
Arguments mk {Hash Origin} _ _.
Arguments input_combination {Hash Origin} _.
Arguments release_combination_keys {Hash Origin} _.
End Mapping.

(** The event an input matching [cfg] produces: same type, code and
    [input_match_hash], with the given value. *)
Definition event_of {Hash Origin} (cfg : InputConfig.t Hash Origin)
    (value : Z) : InputEvent.t Hash :=
  InputEvent.mk (InputConfig.type cfg) (InputConfig.code cfg) value
    (InputConfig.input_match_hash cfg).

(** ** CombinationHandler *)

Section combination_handler.
Context {Hash : Type} `{Countable Hash}.
Context {Origin Source SubHandler : Type}.

(** The sub-handler is any [InputEventHandler]: its [notify] answers with a
    boolean and may change its own state, its [reset] changes its state. *)
Variable sub_notify :
  InputEvent.t Hash → Source → bool → SubHandler → bool * SubHandler.
Variable sub_reset : SubHandler → SubHandler.

Abbreviation Event := (InputEvent.t Hash).
Abbreviation Config := (InputConfig.t Hash Origin).

(** What the handler does to its collaborators, in program order. *)
Inductive Effect : Type :=
  | UInputWrite (origin : Origin) (type code value : Z)
  | UInputSyn (origin : Origin)
  | SubNotify (event : Event) (source : Source) (suppress : bool)
  | SubReset
  | LogError (input_config : Config).

Record CombinationHandler : Type := mkHandler {
  mapping : Mapping.t Hash Origin;
  _pressed_keys : gmap Hash bool;
  _output_previously_active : bool;
  _sub_handler : SubHandler;
  _handled_input_hashes : list Hash;
  _requires_a_release : gmap (Z * Z) bool
  }.

Definition set_pressed_keys (f : gmap Hash bool → gmap Hash bool)
    (self : CombinationHandler) : CombinationHandler :=
  mkHandler (mapping self) (f (_pressed_keys self))
    (_output_previously_active self) (_sub_handler self)
    (_handled_input_hashes self) (_requires_a_release self).

Definition set_output_previously_active (b : bool)
    (self : CombinationHandler) : CombinationHandler :=
  mkHandler (mapping self) (_pressed_keys self) b (_sub_handler self)
    (_handled_input_hashes self) (_requires_a_release self).

Definition set_sub_handler (s : SubHandler)
    (self : CombinationHandler) : CombinationHandler :=
  mkHandler (mapping self) (_pressed_keys self)
    (_output_previously_active self) s
    (_handled_input_hashes self) (_requires_a_release self).

Definition set_requires_a_release
    (f : gmap (Z * Z) bool → gmap (Z * Z) bool)
    (self : CombinationHandler) : CombinationHandler :=
  mkHandler (mapping self) (_pressed_keys self)
    (_output_previously_active self) (_sub_handler self)
    (_handled_input_hashes self) (f (_requires_a_release self)).

(** *** The method monad: state of [self], emitted effects, exceptions *)

Definition M (A : Type) : Type :=
  CombinationHandler → Result A * CombinationHandler * list Effect.

Definition ret {A} (a : A) : M A := λ self, (Ok a, self, []).

Definition bind {A B} (m : M A) (k : A → M B) : M B := λ self,
  match m self with
  | (Ok a, self', out) =>
      match k a self' with
      | (r, self'', out') => (r, self'', out ++ out')
      end
  | (Raise e, self', out) => (Raise e, self', out)
  end.

Definition get_self : M CombinationHandler := λ self, (Ok self, self, []).
Definition modify (f : CombinationHandler → CombinationHandler) : M unit :=
  λ self, (Ok tt, f self, []).
Definition emit (e : Effect) : M unit := λ self, (Ok tt, self, [e]).
Definition raise {A} (e : PyException) : M A := λ self, (Raise e, self, []).
Definition assert (b : bool) : M unit :=
  if b then ret tt else raise AssertionError.

#[global] Instance M_ret : MRet M := @ret.
#[global] Instance M_bind : MBind M := λ A B k m, bind m k.

(** [for x in xs: body(x)] *)
Fixpoint for_each {A} (xs : list A) (body : A → M unit) : M unit :=
  match xs with
  | [] => ret tt
  | x :: xs' => body x;; for_each xs' body
  end.

(** *** [__init__] *)

Definition init_pressed_keys (combination : list Config) : gmap Hash bool :=
  foldl
    (λ m input_config,
       <[InputConfig.input_match_hash input_config := false]> m)
    ∅ combination.

Definition __init__ (combination : list Config)
    (mapping : Mapping.t Hash Origin) (sub : SubHandler)
    : Result CombinationHandler :=
  if existsb InputConfig.defines_analog_input combination then
    Raise AssertionError
  else
    let pressed := init_pressed_keys combination in
    if bool_decide (0 < size pressed)%nat then
      Ok (mkHandler mapping pressed false sub
            (InputConfig.input_match_hash <$> combination) ∅)
    else Raise AssertionError.

(** *** Methods *)

(** [return False not in self._pressed_keys.values()] *)
Definition _is_activated : M bool :=
  self ← get_self;
  ret (bool_decide (false ∉ (map_to_list (_pressed_keys self)).*2)).

Definition _should_release_event (event : Event) : M bool :=
  assert (bool_decide (InputEvent.value event = 0));;
  self ← get_self;
  let popped := default false
    (_requires_a_release self !! InputEvent.type_and_code event) in
  modify (set_requires_a_release (delete (InputEvent.type_and_code event)));;
  ret popped.

Definition _require_release_later (require : bool) (event : Event) : M unit :=
  assert (bool_decide (InputEvent.value event = 1));;
  modify (set_requires_a_release
            (<[InputEvent.type_and_code event := require]>)).

(** The body of the loop of [_forward_release], for one config. [del] is
    only reached for a key whose [get] was truthy, so it cannot raise
    [KeyError]. *)
Definition forward_release_of (input_config : Config) : M unit :=
  self ← get_self;
  if negb (truthy (_requires_a_release self
                     !! InputConfig.type_and_code input_config))
  then ret tt
  else
    match InputConfig.origin_hash input_config with
    | None => emit (LogError input_config)
    | Some origin_hash =>
        emit (UInputWrite origin_hash
                (InputConfig.type input_config)
                (InputConfig.code input_config) 0);;
        emit (UInputSyn origin_hash);;
        modify (set_requires_a_release
                  (delete (InputConfig.type_and_code input_config)))
    end.

(** The [filter] object of the source is lazy, but [_pressed_keys] is not
    written while it is consumed, so it selects the same configs as the
    eager filter below. *)
Definition _forward_release : M unit :=
  self ← get_self;
  if bool_decide (size (_pressed_keys self) = 1%nat)
     || negb (Mapping.release_combination_keys (mapping self))
  then ret tt
  else
    let keys_to_release :=
      List.filter
        (λ cfg, truthy (_pressed_keys self !! InputConfig.input_match_hash cfg))
        (Mapping.input_combination (mapping self)) in
    for_each keys_to_release forward_release_of.

(** [self._sub_handler.notify(event, source, suppress)] *)
Definition call_sub_notify (event : Event) (source : Source)
    (suppress : bool) : M bool :=
  self ← get_self;
  let '(result, sub) := sub_notify event source suppress (_sub_handler self) in
  emit (SubNotify event source suppress);;
  modify (set_sub_handler sub);;
  ret result.

Definition _handle_no_change_press (event : Event) : M bool :=
  self ← get_self;
  _require_release_later (negb (_output_previously_active self)) event;;
  self ← get_self;
  ret (_output_previously_active self).

Definition _handle_no_change_release (event : Event) : M bool :=
  r ← _should_release_event event;
  ret (negb r).

Definition _handle_freshly_activated (suppress : bool) (event : Event)
    (source : Source) : M bool :=
  if suppress then ret false
  else
    _forward_release;;
    modify (set_output_previously_active
              (bool_decide (InputEvent.value event ≠ 0)));;
    sub_handler_result ← call_sub_notify event source suppress;
    _require_release_later (negb sub_handler_result) event;;
    ret sub_handler_result.

Definition _handle_freshly_deactivated (event : Event) (source : Source)
    : M bool :=
  modify (set_output_previously_active
            (bool_decide (InputEvent.value event ≠ 0)));;
  call_sub_notify event source false;;
  r ← _should_release_event event;
  ret (negb r).

Definition notify (event : Event) (source : Source) (suppress : bool)
    : M bool :=
  self ← get_self;
  if bool_decide (InputEvent.input_match_hash event
                    ∉ _handled_input_hashes self)
  then ret false
  else
    let is_pressed := bool_decide (InputEvent.value event = 1) in
    modify (set_pressed_keys
              (<[InputEvent.input_match_hash event := is_pressed]>));;
    activated ← _is_activated;
    self ← get_self;
    let changed :=
      negb (eqb activated (_output_previously_active self)) in
    if changed then
      if is_pressed then _handle_freshly_activated suppress event source
      else _handle_freshly_deactivated event source
    else
      if is_pressed then _handle_no_change_press event
      else _handle_no_change_release event.

Definition reset : M unit :=
  self ← get_self;
  emit SubReset;;
  modify (set_sub_handler (sub_reset (_sub_handler self)));;
  modify (set_pressed_keys (fmap (λ _, false)));;
  modify (set_requires_a_release (λ _, ∅));;
  modify (set_output_previously_active false).


(** *** Driving the handler: sequences of calls and their log *)

Inductive Op : Type :=
  | OpNotify (event : Event) (source : Source) (suppress : bool)
  | OpReset.

(** One finished call: what was asked, what came back, what was emitted. *)
Inductive Call : Type :=
  | NotifyCall (event : Event) (suppress : bool) (result : Result bool)
      (out : list Effect)
  | ResetCall (out : list Effect).

Definition exec (op : Op) (self : CombinationHandler)
    : Call * CombinationHandler :=
  match op with
  | OpNotify event source suppress =>
      match notify event source suppress self with
      | (r, self', out) => (NotifyCall event suppress r out, self')
      end
  | OpReset =>
      match reset self with
      | (_, self', out) => (ResetCall out, self')
      end
  end.

(** The handler object survives an exception of one call, the next call
    runs on whatever state the failed one left behind. *)
Fixpoint run (ops : list Op) (self : CombinationHandler)
    : list Call * CombinationHandler :=
  match ops with
  | [] => ([], self)
  | op :: ops' =>
      match exec op self with
      | (c, self') =>
          match run ops' self' with
          | (log, self'') => (c :: log, self'')
          end
      end
  end.

(** *** Vocabulary of the statements *)

(** All values of the pressed map are true. *)
Definition all_pressed (pressed : gmap Hash bool) : bool :=
  bool_decide (false ∉ (map_to_list pressed).*2).

(** The activation status computed by [notify] after its update of the
    pressed map, and whether it differs from [_output_previously_active]. *)
Definition activated_after (self : CombinationHandler) (event : Event) : bool :=
  all_pressed (<[InputEvent.input_match_hash event
                 := bool_decide (InputEvent.value event = 1)]>
               (_pressed_keys self)).

Definition is_transition (self : CombinationHandler) (event : Event) : bool :=
  negb (eqb (activated_after self event) (_output_previously_active self)).

Definition is_uinput_effect (e : Effect) : bool :=
  match e with
  | UInputWrite _ _ _ _ | UInputSyn _ => true
  | _ => false
  end.

Definition is_sub_notify (e : Effect) : bool :=
  match e with
  | SubNotify _ _ _ => true
  | _ => false
  end.

(** How often the sub-handler was notified. *)
Definition sub_calls (out : list Effect) : nat :=
  length (List.filter is_sub_notify out).

(** A key-up of [(type, code)] written to some forwarding uinput. *)
Definition is_release_of (tc : Z * Z) (e : Effect) : bool :=
  match e with
  | UInputWrite _ t c v => bool_decide ((t, c) = tc ∧ v = 0)
  | _ => false
  end.

Definition emits_release (tc : Z * Z) (out : list Effect) : bool :=
  existsb (is_release_of tc) out.

(** The release sweep in the words of its description: walk the configs in
    order; a config whose pressed entry is true and whose
    [requires_a_release] entry is true gets, if it has an origin, a write of
    [(type, code, 0)] and a [syn] on the uinput of that origin and loses its
    entry; without an origin it is logged and keeps its entry. *)
Fixpoint release_sweep (pressed : gmap Hash bool) (cfgs : list Config)
    (requires : gmap (Z * Z) bool) : gmap (Z * Z) bool * list Effect :=
  match cfgs with
  | [] => (requires, [])
  | cfg :: rest =>
      if truthy (pressed !! InputConfig.input_match_hash cfg)
         && truthy (requires !! InputConfig.type_and_code cfg)
      then
        match InputConfig.origin_hash cfg with
        | Some origin =>
            let '(requires', out) :=
              release_sweep pressed rest
                (delete (InputConfig.type_and_code cfg) requires) in
            (requires',
             UInputWrite origin (InputConfig.type cfg) (InputConfig.code cfg) 0
               :: UInputSyn origin :: out)
        | None =>
            let '(requires', out) := release_sweep pressed rest requires in
            (requires', LogError cfg :: out)
        end
      else release_sweep pressed rest requires
  end.

(** The same sweep read config by config, against the requires map as it
    was when the sweep started. *)
Definition owes_release (pressed : gmap Hash bool)
    (requires : gmap (Z * Z) bool) (cfg : Config) : bool :=
  truthy (pressed !! InputConfig.input_match_hash cfg)
  && truthy (requires !! InputConfig.type_and_code cfg).

Definition release_effects (cfg : Config) : list Effect :=
  match InputConfig.origin_hash cfg with
  | Some origin =>
      [UInputWrite origin (InputConfig.type cfg) (InputConfig.code cfg) 0;
       UInputSyn origin]
  | None => [LogError cfg]
  end.

Definition has_origin (cfg : Config) : bool :=
  match InputConfig.origin_hash cfg with
  | Some _ => true
  | None => false
  end.

(** The requires map and the uinput writes that [_forward_release] leaves
    behind, early exit included. *)
Definition forward_release_result (self : CombinationHandler)
    : gmap (Z * Z) bool * list Effect :=
  if bool_decide (size (_pressed_keys self) = 1%nat)
     || negb (Mapping.release_combination_keys (mapping self))
  then (_requires_a_release self, [])
  else release_sweep (_pressed_keys self)
         (Mapping.input_combination (mapping self))
         (_requires_a_release self).

(** Release bookkeeping as a reading of the call log. [hashes] are the
    handled hashes; calls with other events do not concern the handler.

    [suppressed_press_pending]: the last thing that happened to [(type, code)]
    is a press that [notify] absorbed; a later release of it, absorbed by
    [notify] or written to a uinput, ends that.

    [forwarded_press_pending]: the last thing that happened to [(type, code)]
    is a press that [notify] let through; a later event of that
    [(type, code)], a release of it written to a uinput, or a reset ends
    that. *)
Definition suppressed_step (hashes : list Hash) (tc : Z * Z)
    (pending : bool) (c : Call) : bool :=
  match c with
  | NotifyCall event _ result out =>
      let pending := pending && negb (emits_release tc out) in
      if bool_decide (InputEvent.input_match_hash event ∈ hashes)
         && bool_decide (InputEvent.type_and_code event = tc)
      then
        match result with
        | Ok true => bool_decide (InputEvent.value event = 1)
        | _ => pending
        end
      else pending
  | ResetCall _ => pending
  end.

Definition suppressed_press_pending (hashes : list Hash) (tc : Z * Z)
    (log : list Call) : bool :=
  foldl (suppressed_step hashes tc) false log.

Definition forwarded_step (hashes : list Hash) (tc : Z * Z)
    (pending : bool) (c : Call) : bool :=
  match c with
  | NotifyCall event _ result out =>
      if bool_decide (InputEvent.input_match_hash event ∈ hashes) then
        if bool_decide (InputEvent.type_and_code event = tc) then
          match result with
          | Ok absorbed =>
              bool_decide (InputEvent.value event = 1) && negb absorbed
          | Raise _ => pending
          end
        else pending && negb (emits_release tc out)
      else pending
  | ResetCall _ => false
  end.

Definition forwarded_press_pending (hashes : list Hash) (tc : Z * Z)
    (log : list Call) : bool :=
  foldl (forwarded_step hashes tc) false log.

(** A press of [(type, code)] that the handler is responsible for. *)
Definition is_press_of (hashes : list Hash) (tc : Z * Z) (op : Op) : bool :=
  match op with
  | OpNotify event _ _ =>
      bool_decide (InputEvent.input_match_hash event ∈ hashes)
      && bool_decide (InputEvent.type_and_code event = tc)
      && bool_decide (InputEvent.value event = 1)
  | OpReset => false
  end.

(** A call that passes the [suppress] hint. *)
Definition is_suppressed (op : Op) : bool :=
  match op with
  | OpNotify _ _ suppress => suppress
  | OpReset => false
  end.

(** In a log: no release of [(type, code)] was written to a uinput, and every
    handled release event of [(type, code)] came back absorbed. *)
Definition release_absorbed_not_emitted (hashes : list Hash) (tc : Z * Z)
    (c : Call) : bool :=
  match c with
  | NotifyCall event _ result out =>
      negb (emits_release tc out)
      && (if bool_decide (InputEvent.input_match_hash event ∈ hashes)
             && bool_decide (InputEvent.type_and_code event = tc)
             && bool_decide (InputEvent.value event = 0)
          then match result with Ok true => true | _ => false end
          else true)
  | ResetCall out => negb (emits_release tc out)
  end.

(** *** Vocabulary of further statements *)

(** The values the handler is written for: other handlers have turned the
    value of every event into 0 or 1 before it arrives here. *)
Definition has_key_value (op : Op) : bool :=
  match op with
  | OpNotify event _ _ =>
      bool_decide (InputEvent.value event = 0 ∨ InputEvent.value event = 1)
  | OpReset => true
  end.

Definition is_reset (op : Op) : bool :=
  match op with
  | OpNotify _ _ _ => false
  | OpReset => true
  end.

(** A release event of [(type, code)] that the handler is responsible for. *)
Definition is_release_event_of (hashes : list Hash) (tc : Z * Z) (op : Op)
    : bool :=
  match op with
  | OpNotify event _ _ =>
      bool_decide (InputEvent.input_match_hash event ∈ hashes)
      && bool_decide (InputEvent.type_and_code event = tc)
      && bool_decide (InputEvent.value event = 0)
  | OpReset => false
  end.

(** Every uinput write in [out] is a key-up of a config of [cfgs], on the
    uinput of that config's origin, directly followed by [syn] on the same
    uinput; no [syn] stands alone. *)
Fixpoint only_releases (cfgs : list Config) (out : list Effect) : Prop :=
  match out with
  | [] => True
  | UInputWrite origin t c v :: rest =>
      match rest with
      | UInputSyn origin' :: rest' =>
          v = 0 ∧ origin' = origin
          ∧ (∃ cfg, cfg ∈ cfgs
                    ∧ InputConfig.origin_hash cfg = Some origin
                    ∧ InputConfig.type_and_code cfg = (t, c))
          ∧ only_releases cfgs rest'
      | _ => False
      end
  | UInputSyn _ :: _ => False
  | _ :: rest => only_releases cfgs rest
  end.

(** The releases of [(type, code)] that reach the system during a log: those
    the handler writes to a uinput, and the handled release events that
    [notify] lets through (returns false for). *)
Definition releases_written (tc : Z * Z) (out : list Effect) : nat :=
  length (List.filter (is_release_of tc) out).

Definition release_let_through (hashes : list Hash) (tc : Z * Z) (c : Call)
    : nat :=
  match c with
  | NotifyCall event _ (Ok false) _ =>
      if bool_decide (InputEvent.input_match_hash event ∈ hashes)
         && bool_decide (InputEvent.type_and_code event = tc)
         && bool_decide (InputEvent.value event = 0)
      then 1%nat else 0%nat
  | _ => 0%nat
  end.

Definition call_out (c : Call) : list Effect :=
  match c with
  | NotifyCall _ _ _ out => out
  | ResetCall out => out
  end.

Fixpoint releases_reaching_system (hashes : list Hash) (tc : Z * Z)
    (log : list Call) : nat :=
  match log with
  | [] => 0%nat
  | c :: log' =>
      (releases_written tc (call_out c) + release_let_through hashes tc c
       + releases_reaching_system hashes tc log')%nat
  end.

End combination_handler.

Arguments Effect : clear implicits.
Arguments CombinationHandler : clear implicits.
Arguments Op : clear implicits.
Arguments Call : clear implicits.

(** ** SystemMapping ([keymapper/state.py]) *)

Module SystemMapping.

(** [str.lower()], on the ASCII letters; other bytes are left alone. *)
Definition lower_ascii (a : Ascii.ascii) : Ascii.ascii :=
  let n := Ascii.N_of_ascii a in
  if ((65 <=? n) && (n <=? 90))%N then Ascii.ascii_of_N (n + 32) else a.

Fixpoint lower (s : string) : string :=
  match s with
  | EmptyString => EmptyString
  | String a s' => String (lower_ascii a) (lower s')
  end.

(** [_mapping] is a dict from names to codes, [_occupied_keycodes] a set of
    codes. [_allocated_unknowns] is a dict from codes to names that is
    searched by iteration, so it is kept in insertion order. *)
Record t : Type := mk {
  _mapping : gmap string Z;
  _allocated_unknowns : list (Z * string);
  _occupied_keycodes : gset Z
}.

(** [d[key] = value] on an insertion-ordered dict: an existing key keeps its
    place, a new key goes to the end. *)
Fixpoint dict_set (key : Z) (value : string) (d : list (Z * string))
    : list (Z * string) :=
  match d with
  | [] => [(key, value)]
  | (k, v) :: d' =>
      if bool_decide (k = key) then (k, value) :: d'
      else (k, v) :: dict_set key value d'
  end.

Definition set_allocated_unknowns (f : list (Z * string) → list (Z * string))
    (self : t) : t :=
  mk (_mapping self) (f (_allocated_unknowns self)) (_occupied_keycodes self).

(** [self._mapping.get(str(name).lower())] *)
Definition get (name : string) (self : t) : option Z :=
  _mapping self !! lower name.

(** [for code, key in self._allocated_unknowns.items(): if key == character] *)
Definition find_allocated (character : string) (d : list (Z * string))
    : option Z :=
  fst <$> List.find (λ '(_, key), bool_decide (key = character)) d.

(** [for code in range(256): if code in self._occupied_keycodes: continue] *)
Definition find_free (occupied : gset Z) : option Z :=
  List.find (λ code, bool_decide (code ∉ occupied)) (seqZ 0 256).

Definition get_or_allocate (character : string) (self : t) : Result Z * t :=
  let character := lower character in
  match _mapping self !! character with
  | Some code => (Ok code, self)
  | None =>
      match find_allocated character (_allocated_unknowns self) with
      | Some code => (Ok code, self)
      | None =>
          match find_free (_occupied_keycodes self) with
          | Some code =>
              (Ok code, set_allocated_unknowns (dict_set code character) self)
          | None =>
              (Raise (GenericException "Unknown character and no keycode free"),
               self)
          end
      end
  end.

(** A small layout: [xmodmap] lists [a] and [b] (evdev codes 30 and 48), the
    evdev names of the two keys are known as well, nothing is allocated. *)
Definition two_letter_layout : t :=
  mk (<["a" := 30]> (<["b" := 48]> (<["key_a" := 30]> (<["key_b" := 48]> ∅))))
     [] ({[30; 48]}).

(** *** The other methods of [SystemMapping] *)

Definition set_mapping (f : gmap string Z → gmap string Z) (self : t) : t :=
  mk (f (_mapping self)) (_allocated_unknowns self) (_occupied_keycodes self).

Definition set_occupied_keycodes (f : gset Z → gset Z) (self : t) : t :=
  mk (_mapping self) (_allocated_unknowns self) (f (_occupied_keycodes self)).

(** [self._mapping.update(mapping)]: the entries of the argument win. *)
Definition update (mapping : gmap string Z) (self : t) : t :=
  set_mapping (λ m, mapping ∪ m) self.

(** [self._mapping[str(name).lower()] = code] *)
Definition _set (name : string) (code : Z) (self : t) : t :=
  set_mapping (<[lower name := code]>) self.


(** [clear] deletes every key of [_mapping] and nothing else. *)
Definition clear (self : t) : t := set_mapping (λ _, ∅) self.

Definition XKB_KEYCODE_OFFSET : Z := 8.

(** [populate] reads the layout from [xmodmap -pke]. What enters here is the
    result of [re.findall] on its lower-cased output, each keycode through
    [int] and each list of names through [split]: rows of a keycode and its
    names; [None] when [xmodmap] could not be run, which the method catches.
    A row whose names are empty makes [names.split()[0]] raise [IndexError],
    which the method does not catch. The dump of the table to the config
    directory and the prints are left out. *)
Inductive Raised : Type := NoError | IndexError.

(** The first loop: the first name of each row, unless it is [nosymbol]. *)
Fixpoint first_pass (mappings : list (Z * list string))
    (xmodmap_dict : gmap string Z) (occupied : gset Z)
    : Raised * gmap string Z * gset Z :=
  match mappings with
  | [] => (NoError, xmodmap_dict, occupied)
  | (keycode, names) :: rest =>
      match names with
      | [] => (IndexError, xmodmap_dict, occupied)
      | name :: _ =>
          if bool_decide (name = "nosymbol")
          then first_pass rest xmodmap_dict occupied
          else
            let keycode := keycode - XKB_KEYCODE_OFFSET in
            first_pass rest (<[name := keycode]> xmodmap_dict)
              ({[keycode]} ∪ occupied)
      end
  end.

(** The second loop: all names of each row, without overwriting. *)
Fixpoint second_pass_names (keycode : Z) (names : list string)
    (xmodmap_dict : gmap string Z) : gmap string Z :=
  match names with
  | [] => xmodmap_dict
  | name :: rest =>
      second_pass_names keycode rest
        (match xmodmap_dict !! name with
         | None => <[name := keycode - XKB_KEYCODE_OFFSET]> xmodmap_dict
         | Some _ => xmodmap_dict
         end)
  end.

Fixpoint second_pass (mappings : list (Z * list string))
    (xmodmap_dict : gmap string Z) : gmap string Z :=
  match mappings with
  | [] => xmodmap_dict
  | (keycode, names) :: rest =>
      second_pass rest (second_pass_names keycode names xmodmap_dict)
  end.

(** [for name, ecode in evdev.ecodes.ecodes.items()]: the table of evdev is
    an argument, in its order. *)
Fixpoint set_ecodes (ecodes : list (string * Z)) (self : t) : t :=
  match ecodes with
  | [] => self
  | (name, ecode) :: rest =>
      set_ecodes rest
        (if String.prefix "KEY" name || String.prefix "BTN" name
         then _set name ecode self else self)
  end.

Section populate.
(** [DISABLE_NAME] and [DISABLE_CODE] come from [keymapper.mapping]. *)
Variable DISABLE_NAME : string.
Variable DISABLE_CODE : Z.

Definition populate (xmodmap : option (list (Z * list string)))
    (ecodes : list (string * Z)) (self : t) : Raised * t :=
  let self := clear self in
  let finish xmodmap_dict self :=
    (NoError,
     _set DISABLE_NAME DISABLE_CODE
       (set_ecodes ecodes (update xmodmap_dict self))) in
  match xmodmap with
  | None => finish ∅ self
  | Some mappings =>
      match first_pass mappings ∅ (_occupied_keycodes self) with
      | (IndexError, _, occupied) =>
          (IndexError, set_occupied_keycodes (λ _, occupied) self)
      | (NoError, xmodmap_dict, occupied) =>
          finish (second_pass mappings xmodmap_dict)
            (set_occupied_keycodes (λ _, occupied) self)
      end
  end.

Definition __init__ (xmodmap : option (list (Z * list string)))
    (ecodes : list (string * Z)) : Raised * t :=
  populate xmodmap ecodes (mk ∅ [] ∅).

End populate.

(** *** Name resolution after [populate], spelled out *)



(** The code of the last evdev entry named [KEY...] or [BTN...] whose
    lower-cased name is [name]. *)
Fixpoint ecode_of (name : string) (ecodes : list (string * Z)) : option Z :=
  match ecodes with
  | [] => None
  | (ecode_name, ecode) :: rest =>
      match ecode_of name rest with
      | Some code => Some code
      | None =>
          if (String.prefix "KEY" ecode_name || String.prefix "BTN" ecode_name)
             && bool_decide (lower ecode_name = name)
          then Some ecode else None
      end
  end.


(** Asking for several characters, one after the other. *)
Fixpoint allocate_all (characters : list string) (self : t) : t :=
  match characters with
  | [] => self
  | character :: rest =>
      allocate_all rest (get_or_allocate character self).2
  end.

(** A layout with three rows, the second without a first symbol. *)
Definition three_rows : list (Z * list string) :=
  [(38, ["a"; "A"]); (204, ["nosymbol"; "alt_l"]); (64, ["alt_l"; "meta_l"])].

Definition some_ecodes : list (string * Z) :=
  [("KEY_A", 30); ("EV_KEY", 1); ("BTN_LEFT", 272)].

End SystemMapping.

(** ** Device discovery ([keymapper/getdevices.py])

    [_GetDevices.run] groups the input devices by usb port and names each
    group after its shortest device name; [get_devices] caches that result
    and filters it. What [evdev] reports about a device is a record; the
    thread, the pipe between the two and the logging are left out, leaving
    [get_devices] to call [run] when its cache is empty. Dicts are kept in
    insertion order, and [len] of a name is its number of bytes. *)

Module GetDevices.

Record InputDevice : Type := mkDevice {
  name : string;
  path : string;
  phys : string;
  capabilities : list Z
}.

(** The value [result[shortest_name]]: a dict with the keys [paths] and
    [devices]. *)
Record Group : Type := mkGroup {
  paths : list string;
  devices : list string
}.

Section ordered_dict.
Context {V : Type}.

(** [d.get(key)] *)
Fixpoint dict_get (key : string) (d : list (string * V)) : option V :=
  match d with
  | [] => None
  | (k, v) :: d' => if bool_decide (k = key) then Some v else dict_get key d'
  end.

(** [d[key] = value] *)
Fixpoint dict_set (key : string) (value : V) (d : list (string * V))
    : list (string * V) :=
  match d with
  | [] => [(key, value)]
  | (k, v) :: d' =>
      if bool_decide (k = key) then (k, value) :: d'
      else (k, v) :: dict_set key value d'
  end.

End ordered_dict.

(** [phys.split('/')[0]]; 47 is the code of the slash. *)
Fixpoint before_slash (s : string) : string :=
  match s with
  | EmptyString => EmptyString
  | String a s' =>
      if Ascii.eqb a (Ascii.ascii_of_nat 47) then EmptyString
      else String a (before_slash s')
  end.

(** [sorted(names, key=len)]: a stable sort by length. *)
Fixpoint insert_by_len (x : string) (l : list string) : list string :=
  match l with
  | [] => [x]
  | y :: l' =>
      if (String.length x <=? String.length y)%nat then x :: y :: l'
      else y :: insert_by_len x l'
  end.

Definition sorted_by_len (l : list string) : list string :=
  foldr insert_by_len [] l.

Section run.
(** [evdev.ecodes.EV_KEY] *)
Variable EV_KEY : Z.

(** The first loop of [run]. *)
Fixpoint group_devices (system : list InputDevice)
    (grouped : list (string * list (string * string)))
    : list (string * list (string * string)) :=
  match system with
  | [] => grouped
  | device :: rest =>
      if bool_decide (name device = "Power Button")
      then group_devices rest grouped
      else if negb (bool_decide (EV_KEY ∈ capabilities device))
      then group_devices rest grouped
      else
        let usb := before_slash (phys device) in
        let grouped :=
          match dict_get usb grouped with
          | None => dict_set usb [] grouped
          | Some _ => grouped
          end in
        let grouped :=
          dict_set usb
            (default [] (dict_get usb grouped)
               ++ [(name device, path device)])
            grouped in
        group_devices rest grouped
  end.

(** The second loop of [run]; [None] stands for the [IndexError] of
    [sorted(names, key=len)[0]] on a group without entries. *)
Fixpoint write_groups (groups : list (list (string * string)))
    (result : list (string * Group)) : option (list (string * Group)) :=
  match groups with
  | [] => Some result
  | group :: rest =>
      let names := fst <$> group in
      let devs := snd <$> group in
      match sorted_by_len names with
      | [] => None
      | shortest_name :: _ =>
          write_groups rest
            (dict_set shortest_name (mkGroup devs names) result)
      end
  end.

Definition run (system : list InputDevice)
    : option (list (string * Group)) :=
  write_groups (snd <$> group_devices system []) [].

(** The loop at the end of [get_devices]. [_devices[device]] for a key
    [device] of [_devices] is the value stored with that key. *)
Fixpoint filter_devices (include_keymapper : bool)
    (_devices result : list (string * Group)) : list (string * Group) :=
  match _devices with
  | [] => result
  | (device, group) :: rest =>
      if negb include_keymapper && String.prefix "key-mapper" device
      then filter_devices include_keymapper rest result
      else filter_devices include_keymapper rest (dict_set device group result)
  end.

(** [get_devices] with the module-level cache [_devices] made explicit: it
    returns its result and the cache it leaves. [system] is what a discovery
    would find at the time of the call. *)
Definition get_devices (include_keymapper : bool)
    (system : list InputDevice) (_devices : option (list (string * Group)))
    : option (list (string * Group) * option (list (string * Group))) :=
  match _devices with
  | Some found =>
      Some (filter_devices include_keymapper found [], Some found)
  | None =>
      match run system with
      | Some found =>
          Some (filter_devices include_keymapper found [], Some found)
      | None => None
      end
  end.

(** [refresh_devices] forgets the cache and asks again. *)
Definition refresh_devices (system : list InputDevice)
    (_devices : option (list (string * Group)))
    : option (list (string * Group) * option (list (string * Group))) :=
  get_devices false system None.

(** *** Vocabulary of the statements *)

(** What the second loop stores for a group of [(name, path)] entries. *)
Definition entry_of (group : list (string * string)) : Group :=
  mkGroup (snd <$> group) (fst <$> group).

(** The group of the keyboards of [port]. *)
Definition group_of (port : list InputDevice) : Group :=
  mkGroup (path <$> port) (name <$> port).

(** The devices [run] looks at: keyboards, except the power button. *)
Definition is_keyboard (device : InputDevice) : bool :=
  negb (bool_decide (name device = "Power Button"))
  && bool_decide (EV_KEY ∈ capabilities device).

(** The keyboards of [system] on one usb port, in the order of [system]. *)
Definition on_port (usb : string) (system : list InputDevice)
    : list InputDevice :=
  List.filter
    (λ device, is_keyboard device
               && bool_decide (before_slash (phys device) = usb))
    system.

End run.

(** Two devices of one keyboard, the power button, a mouse without keys and
    a virtual device of key-mapper itself. *)
Definition some_system : list InputDevice :=
  [mkDevice "Logitech USB Keyboard Consumer Control" "/dev/input/event5"
     "usb-0000:03:00.0-1/input1" [0; 1; 2];
   mkDevice "Power Button" "/dev/input/event0" "LNXPWRBN/button/input0" [0; 1];
   mkDevice "Logitech USB Keyboard" "/dev/input/event4"
     "usb-0000:03:00.0-1/input0" [0; 1; 17];
   mkDevice "Wheel" "/dev/input/event7" "usb-0000:03:00.0-2/input0" [0; 2];
   mkDevice "key-mapper Logitech USB Keyboard" "/dev/input/event9"
     "key-mapper" [0; 1]].

End GetDevices.

(** ** Concrete handlers for the scenarios

    Hashes are integers, origins are device names, the event source is not
    inspected, and the sub-handler counts its calls and answers with a fixed
    boolean. *)

Module Scenario.

Definition answering (answer : bool)
    : InputEvent.t Z → unit → bool → nat → bool * nat :=
  λ _ _ _ calls, (answer, S calls).

Definition sub_reset : nat → nat := λ _, 0%nat.

Definition cfg_A : InputConfig.t Z string :=
  InputConfig.mk 1 30 false (Some "keyboard") 130.
Definition cfg_B : InputConfig.t Z string :=
  InputConfig.mk 1 48 false (Some "keyboard") 148.

Definition A_down := event_of cfg_A 1.
Definition A_up := event_of cfg_A 0.
Definition B_down := event_of cfg_B 1.
Definition B_up := event_of cfg_B 0.

(** What [__init__] builds for a combination, its mapping holding the same
    combination. *)
Definition handler_for (combination : list (InputConfig.t Z string))
    (release_combination_keys : bool)
    : CombinationHandler Z _ _ string nat :=
  mkHandler (Mapping.mk combination release_combination_keys)
    (init_pressed_keys combination) false 0%nat
    (InputConfig.input_match_hash <$> combination) ∅.

Definition handler_A := handler_for [cfg_A] true.
Definition handler_AB := handler_for [cfg_A; cfg_B] true.

(** The single-key handler after it absorbed [A] down: the output is active. *)
Definition active_A : CombinationHandler Z _ _ string nat :=
  (notify (answering true) A_down tt false handler_A).1.2.

(** The two-key handler after it let [A] down through. *)
Definition held_A : CombinationHandler Z _ _ string nat :=
  (notify (answering true) A_down tt false handler_AB).1.2.

(** [A] with the value 2, which evdev reports while a key is held. *)
Definition A_repeat := event_of cfg_A 2.

(** Calls in no particular order, with a suppressed one and a reset. *)
Definition some_calls : list (Op Z unit) :=
  [OpNotify A_down tt false; OpNotify B_down tt true; OpNotify A_up tt false;
   OpReset; OpNotify B_down tt false; OpNotify A_down tt false].

(** What follows [A] down in the two-key scenario. *)
Definition rest_of_scenario : list (Op Z unit) :=
  [OpNotify B_down tt false; OpNotify B_up tt false; OpNotify A_up tt false].

End Scenario.

(** * Properties of the combination handler *)

Section combination_handler_facts.
Context {Hash : Type} `{Countable Hash}.
Context {Origin Source SubHandler : Type}.
Variable sub_notify :
  InputEvent.t Hash → Source → bool → SubHandler → bool * SubHandler.
Variable sub_reset : SubHandler → SubHandler.

Abbreviation Handler := (CombinationHandler Hash _ _ Origin SubHandler).
Abbreviation Event := (InputEvent.t Hash).
Abbreviation Config := (InputConfig.t Hash Origin).
Abbreviation Eff := (Effect Hash Origin Source).
Abbreviation sweep := (release_sweep (Source := Source)).
Abbreviation Method :=
  (M (Hash := Hash) (Origin := Origin) (Source := Source)
     (SubHandler := SubHandler)).

Implicit Types (self : Handler) (event : Event) (source : Source).
Implicit Types (suppress : bool) (tc : Z * Z) (out : list Eff).

Ltac unfold_M :=
  unfold mbind, mret, M_bind, M_ret, bind, ret, get_self, modify, emit,
    assert, raise in *.

Ltac destruct_sweep :=
  match goal with
  | |- context [release_sweep ?p ?c ?r] =>
      let E := fresh "Esweep" in
      destruct (release_sweep p c r) as [? ?] eqn:E
  end.

(** ** Laws of the method monad *)

Lemma bind_ret {A B} (a : A) (k : A → Method B) self :
  (ret (Source := Source) a ≫= k) self = k a self.
Proof. unfold_M. by destruct (k a self) as [[? ?] ?]. Qed.

Lemma bind_get_self {B} (k : Handler → Method B) self :
  (get_self (Source := Source) ≫= k) self = k self self.
Proof. unfold_M. by destruct (k self self) as [[? ?] ?]. Qed.

Lemma bind_modify {B} (f : Handler → Handler) (k : unit → Method B) self :
  (modify (Source := Source) f ≫= k) self = k tt (f self).
Proof. unfold_M. by destruct (k tt (f self)) as [[? ?] ?]. Qed.

Lemma bind_emit {B} (e : Eff) (k : unit → Method B) self :
  (emit e ≫= k) self
  = match k tt self with (r, self', out) => (r, self', e :: out) end.
Proof. done. Qed.

Lemma bind_assert_true {B} (k : unit → Method B) self :
  (assert (Source := Source) true ≫= k) self = k tt self.
Proof. unfold_M. cbn. by destruct (k tt self) as [[? ?] ?]. Qed.

Lemma bind_assert_false {B} (k : unit → Method B) self :
  (assert (Source := Source) false ≫= k) self
  = (Raise AssertionError, self, []).
Proof. done. Qed.

Lemma bind_assoc {A B C} (m : Method A) (k : A → Method B)
    (k' : B → Method C) self :
  ((m ≫= k) ≫= k') self = (m ≫= λ a, k a ≫= k') self.
Proof.
  unfold_M. destruct (m self) as [[[a|e] self1] out1]; [|done].
  destruct (k a self1) as [[[b|e] self2] out2]; [|done].
  destruct (k' b self2) as [[r self3] out3]. by rewrite app_assoc.
Qed.

(** ** The pressed map *)

Lemma all_pressed_spec (pressed : gmap Hash bool) :
  all_pressed pressed = true ↔ ∀ k b, pressed !! k = Some b → b = true.
Proof.
  unfold all_pressed. rewrite bool_decide_eq_true. split.
  - intros Hno k b Hk. destruct b; [done|]. exfalso. apply Hno.
    apply list_elem_of_fmap. exists (k, false). split; [done|].
    by apply elem_of_map_to_list.
  - intros Hall Hin. apply list_elem_of_fmap in Hin as [[k b] [Hb Hin]].
    simpl in Hb. subst b. apply elem_of_map_to_list in Hin.
    by specialize (Hall _ _ Hin).
Qed.

Lemma all_pressed_false (pressed : gmap Hash bool) (k : Hash) :
  pressed !! k = Some false → all_pressed pressed = false.
Proof.
  intros Hk. apply not_true_iff_false. rewrite all_pressed_spec. intros Hall.
  by specialize (Hall k false Hk).
Qed.

Lemma all_pressed_insert_false (pressed : gmap Hash bool) (k : Hash) :
  all_pressed (<[k := false]> pressed) = false.
Proof.
  apply not_true_iff_false. rewrite all_pressed_spec. intros Hall.
  by specialize (Hall k false (lookup_insert_eq _ _ _)).
Qed.

Lemma activated_after_release self event :
  InputEvent.value event ≠ 1 → activated_after self event = false.
Proof.
  intros Hv. unfold activated_after.
  rewrite (bool_decide_eq_false_2 _ Hv). apply all_pressed_insert_false.
Qed.

(** ** The sweep of [_forward_release] *)

Lemma forward_release_of_spec (cfg : Config) self :
  forward_release_of (Source := Source) cfg self
  = if truthy (_requires_a_release self !! InputConfig.type_and_code cfg) then
      match InputConfig.origin_hash cfg with
      | Some origin =>
          (Ok tt,
           set_requires_a_release (delete (InputConfig.type_and_code cfg)) self,
           [UInputWrite origin (InputConfig.type cfg) (InputConfig.code cfg) 0;
            UInputSyn origin])
      | None => (Ok tt, self, [LogError cfg])
      end
    else (Ok tt, self, []).
Proof.
  unfold forward_release_of. unfold_M.
  destruct (truthy _); simpl; [|done].
  by destruct (InputConfig.origin_hash cfg).
Qed.

Lemma for_each_sweep (pressed : gmap Hash bool) (cfgs : list Config) self :
  for_each (Source := Source) (List.filter
      (λ cfg, truthy (pressed !! InputConfig.input_match_hash cfg)) cfgs)
    forward_release_of self
  = (Ok tt,
     set_requires_a_release
       (λ _, (sweep pressed cfgs (_requires_a_release self)).1) self,
     (sweep pressed cfgs (_requires_a_release self)).2).
Proof.
  revert self. induction cfgs as [|cfg rest IH]; intros self.
  - by destruct self.
  - cbn [List.filter release_sweep].
    destruct (truthy (pressed !! InputConfig.input_match_hash cfg));
      cbn [andb]; [|apply IH].
    cbn [for_each]. unfold mbind, M_bind, bind.
    rewrite forward_release_of_spec.
    destruct (truthy (_requires_a_release self
                        !! InputConfig.type_and_code cfg)).
    + destruct (InputConfig.origin_hash cfg) as [origin|];
        rewrite IH; cbn; by destruct_sweep.
    + rewrite IH. by destruct self.
Qed.

Lemma _forward_release_spec self :
  _forward_release (Source := Source) self
  = if bool_decide (size (_pressed_keys self) = 1%nat)
       || negb (Mapping.release_combination_keys (mapping self))
    then (Ok tt, self, [])
    else
      (Ok tt,
       set_requires_a_release
         (λ _, (sweep (_pressed_keys self)
                  (Mapping.input_combination (mapping self))
                  (_requires_a_release self)).1) self,
       (sweep (_pressed_keys self)
          (Mapping.input_combination (mapping self))
          (_requires_a_release self)).2).
Proof.
  unfold _forward_release. unfold mbind, M_bind, bind, get_self.
  destruct (_ || _); [done|].
  by rewrite for_each_sweep.
Qed.

(** What the sweep can and cannot do. *)

Lemma sweep_sub_calls (pressed : gmap Hash bool) (cfgs : list Config)
    (requires : gmap (Z * Z) bool) :
  sub_calls (sweep pressed cfgs requires).2 = 0%nat.
Proof.
  revert requires. induction cfgs as [|cfg rest IH]; intros requires; [done|].
  cbn [release_sweep]. destruct (_ && _); [|apply IH].
  destruct (InputConfig.origin_hash cfg) as [origin|].
  - specialize (IH (delete (InputConfig.type_and_code cfg) requires)).
    by destruct_sweep.
  - specialize (IH requires). by destruct_sweep.
Qed.

Lemma sweep_lookup (pressed : gmap Hash bool) (cfgs : list Config)
    (requires : gmap (Z * Z) bool) tc (b : bool) :
  (sweep pressed cfgs requires).1 !! tc = Some b →
  requires !! tc = Some b
  ∧ emits_release tc (sweep pressed cfgs requires).2 = false.
Proof.
  revert requires. induction cfgs as [|cfg rest IH]; intros requires; [done|].
  cbn [release_sweep]. destruct (_ && _); [|apply IH].
  destruct (InputConfig.origin_hash cfg) as [origin|].
  - specialize (IH (delete (InputConfig.type_and_code cfg) requires)).
    destruct_sweep. cbn [fst snd] in *. intros Hlook.
    destruct (IH Hlook) as [Hreq Hemit].
    apply lookup_delete_Some in Hreq as [Hne Hreq]. split; [done|].
    cbn. fold (emits_release tc l). rewrite Hemit, orb_false_r.
    apply bool_decide_eq_false_2. intros [Heq _]. by apply Hne.
  - specialize (IH requires). by destruct_sweep.
Qed.

Lemma sweep_lookup_kept (pressed : gmap Hash bool) (cfgs : list Config)
    (requires : gmap (Z * Z) bool) tc (b : bool) :
  requires !! tc = Some b →
  emits_release tc (sweep pressed cfgs requires).2 = false →
  (sweep pressed cfgs requires).1 !! tc = Some b.
Proof.
  revert requires. induction cfgs as [|cfg rest IH]; intros requires; [done|].
  cbn [release_sweep]. destruct (_ && _); [|apply IH].
  destruct (InputConfig.origin_hash cfg) as [origin|].
  - specialize (IH (delete (InputConfig.type_and_code cfg) requires)).
    destruct_sweep. cbn [fst snd] in *. intros Hreq. cbn.
    fold (emits_release tc l). rewrite orb_false_iff. intros [Hhere Hlater].
    apply bool_decide_eq_false in Hhere. apply IH; [|done].
    rewrite lookup_delete_ne; [done|]. intros Heq. apply Hhere.
    by rewrite <- Heq.
  - specialize (IH requires). by destruct_sweep.
Qed.

Lemma sweep_emits (pressed : gmap Hash bool) (cfgs : list Config)
    (requires : gmap (Z * Z) bool) tc :
  emits_release tc (sweep pressed cfgs requires).2 = true →
  requires !! tc = Some true.
Proof.
  revert requires. induction cfgs as [|cfg rest IH]; intros requires; [done|].
  cbn [release_sweep].
  destruct (truthy (pressed !! _)); cbn [andb]; [|apply IH].
  destruct (truthy (requires !! InputConfig.type_and_code cfg)) eqn:Hreq;
    [|apply IH].
  destruct (InputConfig.origin_hash cfg) as [origin|].
  - specialize (IH (delete (InputConfig.type_and_code cfg) requires)).
    destruct_sweep. cbn. fold (emits_release tc l).
    rewrite orb_true_iff. intros [Hhere|Hlater].
    + apply bool_decide_eq_true in Hhere as [<- _].
      unfold InputConfig.type_and_code in Hreq.
      by destruct (requires !! _) as [[]|].
    + apply IH in Hlater. by apply lookup_delete_Some in Hlater as [_ ?].
  - specialize (IH requires). by destruct_sweep.
Qed.

Lemma owes_release_delete (pressed : gmap Hash bool)
    (requires : gmap (Z * Z) bool) tc (cfg : Config) :
  InputConfig.type_and_code cfg ≠ tc →
  owes_release pressed (delete tc requires) cfg
  = owes_release pressed requires cfg.
Proof. intros Hne. unfold owes_release. by rewrite lookup_delete_ne. Qed.

(** When no two configs share their [(type, code)], the sweep does not
    disturb itself: each config is judged against the requires map the sweep
    started with. *)
Lemma sweep_distinct (pressed : gmap Hash bool) (cfgs : list Config)
    (requires : gmap (Z * Z) bool) :
  NoDup (InputConfig.type_and_code <$> cfgs) →
  sweep pressed cfgs requires
  = (foldl (λ m cfg, delete (InputConfig.type_and_code cfg) m) requires
       (List.filter (λ cfg, owes_release pressed requires cfg && has_origin cfg)
          cfgs),
     flat_map release_effects
       (List.filter (owes_release pressed requires) cfgs)).
Proof.
  revert requires. induction cfgs as [|cfg rest IH]; intros requires Hnd;
    [done|].
  apply NoDup_cons in Hnd as [Hfresh Hnd].
  cbn [release_sweep List.filter]. fold (owes_release pressed requires cfg).
  destruct (owes_release pressed requires cfg); cbn [andb]; [|by apply IH].
  destruct (InputConfig.origin_hash cfg) as [origin|] eqn:Horigin.
  - assert (has_origin cfg = true) as ->
      by (unfold has_origin; by rewrite Horigin).
    assert (release_effects (Source := Source) cfg
            = [UInputWrite origin (InputConfig.type cfg)
                 (InputConfig.code cfg) 0; UInputSyn origin]) as Heffects
      by (unfold release_effects; by rewrite Horigin).
    rewrite IH by done. cbn [flat_map foldl]. rewrite Heffects.
    cbn [app]. f_equal.
    + f_equal. apply filter_ext_in. intros cfg' Hin.
      rewrite owes_release_delete; [done|]. intros Heq. apply Hfresh.
      rewrite <- Heq. apply list_elem_of_fmap_2. by apply list_elem_of_In.
    + do 3 f_equal. apply filter_ext_in. intros cfg' Hin.
      apply owes_release_delete. intros Heq. apply Hfresh.
      rewrite <- Heq. apply list_elem_of_fmap_2. by apply list_elem_of_In.
  - assert (has_origin cfg = false) as ->
      by (unfold has_origin; by rewrite Horigin).
    assert (release_effects (Source := Source) cfg = [LogError cfg])
      as Heffects by (unfold release_effects; by rewrite Horigin).
    rewrite IH by done. cbn [flat_map]. by rewrite Heffects.
Qed.

Lemma forward_release_result_sub_calls self :
  sub_calls (forward_release_result (Source := Source) self).2 = 0%nat.
Proof.
  unfold forward_release_result. destruct (_ || _); [done|].
  apply sweep_sub_calls.
Qed.

Lemma forward_release_result_lookup self tc (b : bool) :
  (forward_release_result (Source := Source) self).1 !! tc = Some b →
  _requires_a_release self !! tc = Some b
  ∧ emits_release tc (forward_release_result (Source := Source) self).2 = false.
Proof.
  unfold forward_release_result. destruct (_ || _); [done|].
  apply sweep_lookup.
Qed.

Lemma forward_release_result_lookup_kept self tc (b : bool) :
  _requires_a_release self !! tc = Some b →
  emits_release tc (forward_release_result (Source := Source) self).2 = false →
  (forward_release_result (Source := Source) self).1 !! tc = Some b.
Proof.
  unfold forward_release_result. destruct (_ || _); [done|].
  apply sweep_lookup_kept.
Qed.

Lemma forward_release_result_emits self tc :
  emits_release tc (forward_release_result (Source := Source) self).2 = true →
  _requires_a_release self !! tc = Some true.
Proof.
  unfold forward_release_result. destruct (_ || _); [done|].
  apply sweep_emits.
Qed.

(** ** [notify], branch by branch *)

Lemma notify_handled self event source suppress :
  InputEvent.input_match_hash event ∈ _handled_input_hashes self →
  notify sub_notify event source suppress self
  = let is_pressed := bool_decide (InputEvent.value event = 1) in
    let self1 :=
      set_pressed_keys
        (<[InputEvent.input_match_hash event := is_pressed]>) self in
    (if is_transition self event then
       if is_pressed
       then _handle_freshly_activated sub_notify suppress event source
       else _handle_freshly_deactivated sub_notify event source
     else
       if is_pressed then _handle_no_change_press event
       else _handle_no_change_release event) self1.
Proof.
  intros Hin. unfold notify. rewrite bind_get_self.
  rewrite bool_decide_eq_false_2 by (by intros Hn). cbn zeta.
  rewrite bind_modify. unfold _is_activated.
  rewrite bind_assoc, bind_get_self, bind_ret, bind_get_self. done.
Qed.

Lemma call_sub_notify_bind {B} event source suppress
    (k : bool → Method B) self :
  (call_sub_notify sub_notify event source suppress ≫= k) self
  = match k (sub_notify event source suppress (_sub_handler self)).1
            (set_sub_handler
               (sub_notify event source suppress (_sub_handler self)).2 self)
    with
    | (r, self', out) => (r, self', SubNotify event source suppress :: out)
    end.
Proof.
  unfold call_sub_notify. rewrite bind_assoc, bind_get_self.
  destruct (sub_notify _ _ _ _) as [result sub]. cbn [fst snd].
  rewrite bind_assoc, bind_emit, bind_assoc, bind_modify, bind_ret. done.
Qed.

Lemma _should_release_event_bind {B} event (k : bool → Method B) self :
  (_should_release_event event ≫= k) self
  = if bool_decide (InputEvent.value event = 0) then
      k (default false
           (_requires_a_release self !! InputEvent.type_and_code event))
        (set_requires_a_release
           (delete (InputEvent.type_and_code event)) self)
    else (Raise AssertionError, self, []).
Proof.
  unfold _should_release_event. rewrite bind_assoc.
  destruct (bool_decide _).
  - rewrite bind_assert_true, bind_assoc, bind_get_self. cbn zeta.
    by rewrite bind_assoc, bind_modify, bind_ret.
  - by rewrite bind_assert_false.
Qed.

Lemma _require_release_later_bind {B} (require : bool) event
    (k : unit → Method B) self :
  (_require_release_later require event ≫= k) self
  = if bool_decide (InputEvent.value event = 1) then
      k tt (set_requires_a_release
              (<[InputEvent.type_and_code event := require]>) self)
    else (Raise AssertionError, self, []).
Proof.
  unfold _require_release_later. rewrite bind_assoc.
  destruct (bool_decide _).
  - by rewrite bind_assert_true, bind_modify.
  - by rewrite bind_assert_false.
Qed.

Lemma _forward_release_bind {B} (k : unit → Method B) self :
  (_forward_release ≫= k) self
  = if bool_decide (size (_pressed_keys self) = 1%nat)
       || negb (Mapping.release_combination_keys (mapping self))
    then k tt self
    else
      match k tt (set_requires_a_release
                    (λ _, (sweep (_pressed_keys self)
                             (Mapping.input_combination (mapping self))
                             (_requires_a_release self)).1) self)
      with
      | (r, self', out) =>
          (r, self',
           (sweep (_pressed_keys self)
              (Mapping.input_combination (mapping self))
              (_requires_a_release self)).2 ++ out)
      end.
Proof.
  unfold mbind, M_bind, bind. rewrite _forward_release_spec.
  destruct (_ || _); [|done]. by destruct (k tt self) as [[? ?] ?].
Qed.

(** The four handlers in closed form. *)

Lemma _handle_no_change_press_spec event self :
  InputEvent.value event = 1 →
  _handle_no_change_press (Source := Source) event self
  = (Ok (_output_previously_active self),
     set_requires_a_release
       (<[InputEvent.type_and_code event
          := negb (_output_previously_active self)]>) self,
     []).
Proof.
  intros Hv. unfold _handle_no_change_press.
  rewrite bind_get_self, _require_release_later_bind.
  by rewrite (bool_decide_eq_true_2 _ Hv), bind_get_self.
Qed.

Lemma _handle_no_change_release_spec event self :
  InputEvent.value event = 0 →
  _handle_no_change_release (Source := Source) event self
  = (Ok (negb (default false
                 (_requires_a_release self !! InputEvent.type_and_code event))),
     set_requires_a_release (delete (InputEvent.type_and_code event)) self,
     []).
Proof.
  intros Hv. unfold _handle_no_change_release.
  by rewrite _should_release_event_bind, (bool_decide_eq_true_2 _ Hv).
Qed.

Lemma _handle_freshly_deactivated_spec event source self :
  InputEvent.value event = 0 →
  _handle_freshly_deactivated sub_notify event source self
  = (Ok (negb (default false
                 (_requires_a_release self !! InputEvent.type_and_code event))),
     set_requires_a_release (delete (InputEvent.type_and_code event))
       (set_sub_handler
          (sub_notify event source false (_sub_handler self)).2
          (set_output_previously_active false self)),
     [SubNotify event source false]).
Proof.
  intros Hv. unfold _handle_freshly_deactivated.
  rewrite bind_modify, call_sub_notify_bind, _should_release_event_bind.
  rewrite (bool_decide_eq_true_2 _ Hv).
  rewrite bool_decide_eq_false_2 by (by intros Hn). done.
Qed.

Lemma _handle_freshly_activated_spec event source self :
  InputEvent.value event = 1 →
  _handle_freshly_activated sub_notify false event source self
  = let result := (sub_notify event source false (_sub_handler self)).1 in
    (Ok result,
     mkHandler (mapping self) (_pressed_keys self) true
       (sub_notify event source false (_sub_handler self)).2
       (_handled_input_hashes self)
       (<[InputEvent.type_and_code event := negb result]>
          (forward_release_result (Source := Source) self).1),
     (forward_release_result (Source := Source) self).2
       ++ [SubNotify event source false]).
Proof.
  intros Hv. unfold _handle_freshly_activated, forward_release_result.
  rewrite _forward_release_bind.
  destruct (_ || _).
  - rewrite bind_modify, call_sub_notify_bind, _require_release_later_bind.
    rewrite (bool_decide_eq_true_2 _ Hv).
    rewrite bool_decide_eq_true_2 by (by rewrite Hv). done.
  - rewrite bind_modify, call_sub_notify_bind, _require_release_later_bind.
    rewrite (bool_decide_eq_true_2 _ Hv).
    rewrite bool_decide_eq_true_2 by (by rewrite Hv). done.
Qed.

(** [notify] on a handled event, all branches at once. *)
Lemma notify_eq self event source suppress :
  InputEvent.input_match_hash event ∈ _handled_input_hashes self →
  notify sub_notify event source suppress self
  = let pressed :=
      <[InputEvent.input_match_hash event
        := bool_decide (InputEvent.value event = 1)]> (_pressed_keys self) in
    let self1 :=
      mkHandler (mapping self) pressed (_output_previously_active self)
        (_sub_handler self) (_handled_input_hashes self)
        (_requires_a_release self) in
    let answer := sub_notify event source false (_sub_handler self) in
    let tc := InputEvent.type_and_code event in
    if bool_decide (InputEvent.value event = 1) then
      if is_transition self event then
        if suppress then (Ok false, self1, [])
        else
          (Ok answer.1,
           mkHandler (mapping self) pressed true answer.2
             (_handled_input_hashes self)
             (<[tc := negb answer.1]>
                (forward_release_result (Source := Source) self1).1),
           (forward_release_result self1).2 ++ [SubNotify event source false])
      else
        (Ok (_output_previously_active self),
         mkHandler (mapping self) pressed (_output_previously_active self)
           (_sub_handler self) (_handled_input_hashes self)
           (<[tc := negb (_output_previously_active self)]>
              (_requires_a_release self)),
         [])
    else if is_transition self event then
      if bool_decide (InputEvent.value event = 0) then
        (Ok (negb (default false (_requires_a_release self !! tc))),
         mkHandler (mapping self) pressed false answer.2
           (_handled_input_hashes self)
           (delete tc (_requires_a_release self)),
         [SubNotify event source false])
      else
        (Raise AssertionError,
         mkHandler (mapping self) pressed true answer.2
           (_handled_input_hashes self) (_requires_a_release self),
         [SubNotify event source false])
    else
      if bool_decide (InputEvent.value event = 0) then
        (Ok (negb (default false (_requires_a_release self !! tc))),
         mkHandler (mapping self) pressed (_output_previously_active self)
           (_sub_handler self) (_handled_input_hashes self)
           (delete tc (_requires_a_release self)),
         [])
      else (Raise AssertionError, self1, []).
Proof.
  intros Hin. rewrite notify_handled by done. cbv beta zeta.
  destruct (decide (InputEvent.value event = 1)) as [Hv|Hv].
  - rewrite (bool_decide_eq_true_2 _ Hv). destruct (is_transition self event).
    + destruct suppress; [done|].
      by rewrite _handle_freshly_activated_spec.
    + by rewrite _handle_no_change_press_spec.
  - rewrite (bool_decide_eq_false_2 _ Hv). destruct (is_transition self event).
    + unfold _handle_freshly_deactivated.
      rewrite bind_modify, call_sub_notify_bind, _should_release_event_bind.
      destruct (bool_decide (InputEvent.value event = 0)) eqn:Hz; [|
        by rewrite bool_decide_eq_true_2 by
          (by intros ?; apply bool_decide_eq_false in Hz)].
      apply bool_decide_eq_true in Hz.
      by rewrite bool_decide_eq_false_2 by (by intros ?).
    + unfold _handle_no_change_release. rewrite _should_release_event_bind.
      by destruct (bool_decide (InputEvent.value event = 0)).
Qed.

Lemma notify_unhandled self event source suppress :
  InputEvent.input_match_hash event ∉ _handled_input_hashes self →
  notify sub_notify event source suppress self = (Ok false, self, []).
Proof.
  intros Hnot. unfold notify. rewrite bind_get_self.
  by rewrite (bool_decide_eq_true_2 _ Hnot).
Qed.

Lemma is_transition_release self event :
  InputEvent.value event ≠ 1 →
  is_transition self event = _output_previously_active self.
Proof.
  intros Hv. unfold is_transition. rewrite activated_after_release by done.
  by destruct (_output_previously_active self).
Qed.

(** ** The claims about single calls *)

(** C10. An event whose [input_match_hash] is not among the handled hashes
    is inert: [notify] returns false, emits nothing (no sub-handler call, no
    uinput write) and leaves the handler, hence the pressed map, the requires
    map and [_output_previously_active], as it was. *)
Theorem notify_non_member_inert self event source suppress :
  InputEvent.input_match_hash event ∉ _handled_input_hashes self →
  notify sub_notify event source suppress self = (Ok false, self, []).
Proof.
  apply notify_unhandled.
Qed.

(** C4. A press with [suppress = true] that makes all pressed values true
    while the output was not active returns false, emits nothing, and changes
    only the pressed entry of the event's hash. *)
Theorem notify_suppressed_fresh_activation self event source :
  InputEvent.input_match_hash event ∈ _handled_input_hashes self →
  InputEvent.value event = 1 →
  all_pressed (<[InputEvent.input_match_hash event := true]>
                 (_pressed_keys self)) = true →
  _output_previously_active self = false →
  notify sub_notify event source true self
  = (Ok false,
     mkHandler (mapping self)
       (<[InputEvent.input_match_hash event := true]> (_pressed_keys self))
       (_output_previously_active self) (_sub_handler self)
       (_handled_input_hashes self) (_requires_a_release self),
     []).
Proof.
  intros Hin Hv Hall Hout. rewrite notify_handled by done.
  unfold is_transition, activated_after.
  rewrite (bool_decide_eq_true_2 _ Hv), Hall, Hout.
  unfold set_pressed_keys. rewrite Hout. reflexivity.
Qed.

(** C3. A release (value 0) that takes the handler from active to inactive:
    the sub-handler is notified exactly once, with [suppress = false]
    whatever the caller passed; [_output_previously_active] becomes false;
    the entry of the event's [(type, code)] is removed from the requires map
    and [notify] returns its negation, an absent entry counting as false. *)
Theorem notify_fresh_deactivation self event source suppress :
  InputEvent.input_match_hash event ∈ _handled_input_hashes self →
  InputEvent.value event = 0 →
  _output_previously_active self = true →
  is_transition self event = true
  ∧ notify sub_notify event source suppress self
    = (Ok (negb (default false
                   (_requires_a_release self
                      !! InputEvent.type_and_code event))),
       mkHandler (mapping self)
         (<[InputEvent.input_match_hash event := false]> (_pressed_keys self))
         false
         (sub_notify event source false (_sub_handler self)).2
         (_handled_input_hashes self)
         (delete (InputEvent.type_and_code event) (_requires_a_release self)),
       [SubNotify event source false]).
Proof.
  intros Hin Hv Hout.
  assert (is_transition self event = true) as Htr.
  { unfold is_transition. rewrite activated_after_release, Hout; [done|lia]. }
  split; [done|]. rewrite notify_handled, Htr by done.
  rewrite bool_decide_eq_false_2 by lia. cbv beta iota zeta.
  by rewrite _handle_freshly_deactivated_spec.
Qed.

(** C5. A call that does not change the activation state: a press stores
    the negation of [_output_previously_active] under the event's
    [(type, code)] and returns [_output_previously_active]; a release removes
    the entry and returns its negation, which is true when there was none. *)
Theorem notify_no_change self event source suppress :
  InputEvent.input_match_hash event ∈ _handled_input_hashes self →
  is_transition self event = false →
  (InputEvent.value event = 1 →
   notify sub_notify event source suppress self
   = (Ok (_output_previously_active self),
      mkHandler (mapping self)
        (<[InputEvent.input_match_hash event := true]> (_pressed_keys self))
        (_output_previously_active self) (_sub_handler self)
        (_handled_input_hashes self)
        (<[InputEvent.type_and_code event
           := negb (_output_previously_active self)]>
           (_requires_a_release self)),
      []))
  ∧ (InputEvent.value event = 0 →
     notify sub_notify event source suppress self
     = (Ok (negb (default false
                    (_requires_a_release self
                       !! InputEvent.type_and_code event))),
        mkHandler (mapping self)
          (<[InputEvent.input_match_hash event := false]>
             (_pressed_keys self))
          (_output_previously_active self) (_sub_handler self)
          (_handled_input_hashes self)
          (delete (InputEvent.type_and_code event)
             (_requires_a_release self)),
        [])
     ∧ (_requires_a_release self !! InputEvent.type_and_code event = None →
        (notify sub_notify event source suppress self).1.1 = Ok true)).
Proof.
  intros Hin Htr. split; intros Hv.
  - rewrite notify_handled, Htr by done.
    rewrite (bool_decide_eq_true_2 _ Hv). cbv beta iota zeta.
    by rewrite _handle_no_change_press_spec.
  - assert (notify sub_notify event source suppress self
            = _handle_no_change_release event
                (set_pressed_keys
                   (<[InputEvent.input_match_hash event := false]>) self))
      as ->.
    { rewrite notify_handled, Htr by done.
      by rewrite bool_decide_eq_false_2 by lia. }
    rewrite _handle_no_change_release_spec by done.
    split; [done|]. cbn. by intros ->.
Qed.

(** C6. The release sweep of a fresh activation that is not suppressed. If
    the pressed map has exactly one key or [release_combination_keys] is not
    set, the call writes to no uinput. Otherwise the uinput writes of the
    call and the requires map it leaves are those of [release_sweep] over
    the mapping's combination, in combination order: a config that is
    pressed and whose [(type, code)] requires a release gets one write of
    [(type, code, 0)] and one [syn] on the uinput of its origin and loses its
    entry; without an origin it is logged, nothing is written and the entry
    stays. The writes precede the one sub-handler call; afterwards the
    event's own entry is set from the sub-handler's answer. When the configs
    have pairwise distinct [(type, code)], every config is judged against
    the requires map as it was before the call. *)
Theorem notify_release_sweep self event source :
  InputEvent.input_match_hash event ∈ _handled_input_hashes self →
  InputEvent.value event = 1 →
  is_transition self event = true →
  let pressed :=
    <[InputEvent.input_match_hash event := true]> (_pressed_keys self) in
  let combination := Mapping.input_combination (mapping self) in
  let swept :=
    if bool_decide (size pressed = 1%nat)
       || negb (Mapping.release_combination_keys (mapping self))
    then (_requires_a_release self, [])
    else sweep pressed combination (_requires_a_release self) in
  let answer := sub_notify event source false (_sub_handler self) in
  notify sub_notify event source false self
  = (Ok answer.1,
     mkHandler (mapping self) pressed true answer.2
       (_handled_input_hashes self)
       (<[InputEvent.type_and_code event := negb answer.1]> swept.1),
     swept.2 ++ [SubNotify event source false])
  ∧ (size pressed ≠ 1%nat →
     Mapping.release_combination_keys (mapping self) = true →
     NoDup (InputConfig.type_and_code <$> combination) →
     swept
     = (foldl (λ m cfg, delete (InputConfig.type_and_code cfg) m)
          (_requires_a_release self)
          (List.filter
             (λ cfg, owes_release pressed (_requires_a_release self) cfg
                     && has_origin cfg)
             combination),
        flat_map release_effects
          (List.filter (owes_release pressed (_requires_a_release self))
             combination)))
  ∧ (size pressed = 1%nat
     ∨ Mapping.release_combination_keys (mapping self) = false →
     List.filter is_uinput_effect
       (notify sub_notify event source false self).2 = []).
Proof.
  intros Hin Hv Htr. cbv zeta.
  assert (notify sub_notify event source false self
          = _handle_freshly_activated sub_notify false event source
              (set_pressed_keys
                 (<[InputEvent.input_match_hash event := true]>) self))
    as Hnotify.
  { rewrite notify_handled, Htr by done.
    by rewrite (bool_decide_eq_true_2 _ Hv). }
  rewrite Hnotify, _handle_freshly_activated_spec by done.
  split_and!.
  - done.
  - intros Hsize Hrelease Hnd.
    rewrite (bool_decide_eq_false_2 _ Hsize), Hrelease. cbn [negb orb].
    by apply sweep_distinct.
  - intros Hearly. cbv zeta. unfold forward_release_result.
    cbn [_pressed_keys mapping set_pressed_keys _requires_a_release].
    assert (bool_decide
              (size (<[InputEvent.input_match_hash event := true]>
                       (_pressed_keys self)) = 1%nat)
            || negb (Mapping.release_combination_keys (mapping self)) = true)
      as ->; [|done].
    destruct Hearly as [Hsize| ->]; [|apply orb_true_r].
    by rewrite (bool_decide_eq_true_2 _ Hsize).
Qed.

(** ** Reset *)

Lemma reset_spec self :
  reset (Source := Source) sub_reset self
  = (Ok tt,
     mkHandler (mapping self) ((λ _, false) <$> _pressed_keys self) false
       (sub_reset (_sub_handler self)) (_handled_input_hashes self) ∅,
     [SubReset]).
Proof.
  unfold reset. rewrite bind_get_self, bind_emit.
  by rewrite !bind_modify.
Qed.

(** C8. After [reset] every value of the pressed map is false and its key
    set is the same, the requires map is empty and
    [_output_previously_active] is false; a second [reset] leaves all of
    these (and the static fields) as the first one did, and leaves the whole
    handler equal when resetting the sub-handler twice is the same as
    resetting it once. This holds from every state, reachable or not. *)
Theorem reset_idempotent self :
  let once := (reset (Source := Source) sub_reset self).1.2 in
  let twice := (reset (Source := Source) sub_reset once).1.2 in
  (reset (Source := Source) sub_reset self).1.1 = Ok tt
  ∧ dom (_pressed_keys once) = dom (_pressed_keys self)
  ∧ (∀ k b, _pressed_keys once !! k = Some b → b = false)
  ∧ _requires_a_release once = ∅
  ∧ _output_previously_active once = false
  ∧ _pressed_keys twice = _pressed_keys once
  ∧ _requires_a_release twice = _requires_a_release once
  ∧ _output_previously_active twice = _output_previously_active once
  ∧ mapping twice = mapping once
  ∧ _handled_input_hashes twice = _handled_input_hashes once
  ∧ (sub_reset (sub_reset (_sub_handler self)) = sub_reset (_sub_handler self)
     → twice = once).
Proof.
  cbv zeta. rewrite !reset_spec. cbn.
  split_and!; try done.
  - apply dom_fmap_L.
  - intros k b. rewrite lookup_fmap. by destruct (_ !! k); intros [= <-].
  - apply map_eq. intros k. rewrite !lookup_fmap. by destruct (_ !! k).
  - intros ->. f_equal. apply map_eq. intros k. rewrite !lookup_fmap.
    by destruct (_ !! k).
Qed.

(** ** Activation transitions *)

(** C7, amended. [_output_previously_active] changes only in a call that is
    an activation transition. The sub-handler is notified exactly once in
    such a call, except in a fresh activation that the caller suppresses:
    there it is not notified and [_output_previously_active] stays. It is
    never notified in a call that is no transition, nor for an event the
    handler does not handle. *)
Theorem activation_transitions self event source suppress :
  let '(_, self', out) := notify sub_notify event source suppress self in
  if bool_decide (InputEvent.input_match_hash event
                    ∈ _handled_input_hashes self)
     && is_transition self event
  then
    if suppress && bool_decide (InputEvent.value event = 1)
    then sub_calls out = 0%nat
         ∧ _output_previously_active self' = _output_previously_active self
    else sub_calls out = 1%nat
         ∧ _output_previously_active self'
           = bool_decide (InputEvent.value event ≠ 0)
  else sub_calls out = 0%nat
       ∧ _output_previously_active self' = _output_previously_active self.
Proof.
  destruct (decide (InputEvent.input_match_hash event
                      ∈ _handled_input_hashes self)) as [Hin|Hnot].
  2: { rewrite notify_unhandled by done.
       by rewrite (bool_decide_eq_false_2 _ Hnot). }
  rewrite notify_handled, (bool_decide_eq_true_2 _ Hin) by done.
  cbv beta iota zeta. cbn [andb].
  destruct (is_transition self event);
    destruct (decide (InputEvent.value event = 1)) as [Hv|Hv].
  - rewrite (bool_decide_eq_true_2 _ Hv). destruct suppress; [done|].
    rewrite _handle_freshly_activated_spec by done. cbn [andb].
    split.
    + unfold sub_calls. rewrite List.filter_app, length_app.
      pose proof (forward_release_result_sub_calls
        (set_pressed_keys
           (<[InputEvent.input_match_hash event := true]>) self)) as Hnone.
      unfold sub_calls in Hnone. by rewrite Hnone.
    + cbn. by rewrite bool_decide_eq_true_2 by lia.
  - rewrite (bool_decide_eq_false_2 _ Hv), andb_false_r.
    unfold _handle_freshly_deactivated.
    rewrite bind_modify, call_sub_notify_bind, _should_release_event_bind.
    destruct (bool_decide (InputEvent.value event = 0)) eqn:Hz; cbn.
    + apply bool_decide_eq_true in Hz.
      by rewrite bool_decide_eq_false_2 by (by intros Hn).
    + done.
  - rewrite (bool_decide_eq_true_2 _ Hv).
    by rewrite _handle_no_change_press_spec.
  - rewrite (bool_decide_eq_false_2 _ Hv).
    unfold _handle_no_change_release.
    rewrite _should_release_event_bind. by destruct (bool_decide _).
Qed.

(** ** Release bookkeeping over sequences of calls *)

Lemma emits_release_app tc out1 out2 :
  emits_release tc (out1 ++ out2)
  = emits_release tc out1 || emits_release tc out2.
Proof. apply existsb_app. Qed.

Lemma exec_handled_input_hashes (op : Op Hash Source) self :
  _handled_input_hashes (exec sub_notify sub_reset op self).2
  = _handled_input_hashes self.
Proof.
  destruct op as [event source suppress|]; cbn [exec].
  - destruct (decide (InputEvent.input_match_hash event
                        ∈ _handled_input_hashes self)) as [Hin|Hnot].
    + rewrite notify_eq by done. cbv zeta.
      repeat (match goal with |- context [if ?b then _ else _] =>
                destruct b end); done.
    + by rewrite notify_unhandled.
  - by rewrite reset_spec.
Qed.

Lemma exec_keeps_unowed tc (op : Op Hash Source) self :
  is_press_of (_handled_input_hashes self) tc op = false →
  _requires_a_release self !! tc ≠ Some true →
  _requires_a_release (exec sub_notify sub_reset op self).2 !! tc ≠ Some true
  ∧ release_absorbed_not_emitted (_handled_input_hashes self) tc
      (exec sub_notify sub_reset op self).1 = true.
Proof.
  intros Hop Hreq. destruct op as [event source suppress|]; cbn [exec].
  2: { by rewrite reset_spec. }
  destruct (decide (InputEvent.input_match_hash event
                      ∈ _handled_input_hashes self)) as [Hin|Hnot].
  2: { rewrite notify_unhandled by done. cbn.
       by rewrite (bool_decide_eq_false_2 _ Hnot). }
  cbn in Hop. rewrite (bool_decide_eq_true_2 _ Hin) in Hop.
  rewrite notify_eq by done. cbv zeta.
  set (self1 := mkHandler _ _ _ _ _ _).
  destruct (decide (InputEvent.type_and_code event = tc)) as [Htc|Htc].
  - (* an event of this (type, code): it is not a press *)
    rewrite (bool_decide_eq_true_2 _ Htc) in Hop. cbn in Hop.
    rewrite Hop.
    destruct (bool_decide (InputEvent.value event = 0)) eqn:Hz.
    + assert (default false (_requires_a_release self !! tc) = false) as Hd.
      { destruct (_requires_a_release self !! tc) as [[]|]; done. }
      destruct (is_transition self event); cbn;
        rewrite Hz, Htc, Hd, lookup_delete_eq;
        (split; [done|by repeat case_match]).
    + destruct (is_transition self event); cbn; by rewrite Hz, andb_false_r.
  - (* an event of another (type, code) *)
    destruct (bool_decide (InputEvent.value event = 1)).
    + destruct (is_transition self event); [destruct suppress|]; cbn.
      * by rewrite (bool_decide_eq_false_2 _ Htc), andb_false_r.
      * rewrite lookup_insert_ne by done.
        rewrite (bool_decide_eq_false_2 _ Htc), andb_false_r, andb_true_r.
        fold (emits_release tc
                ((forward_release_result (Source := Source) self1).2
                   ++ [SubNotify event source false])).
        rewrite emits_release_app. cbn. rewrite orb_false_r.
        split.
        -- intros Hlook.
           by apply forward_release_result_lookup in Hlook as [? _].
        -- apply negb_true_iff, not_true_iff_false. intros Hemit.
           by apply forward_release_result_emits in Hemit.
      * rewrite lookup_insert_ne by done.
        by rewrite (bool_decide_eq_false_2 _ Htc), andb_false_r.
    + destruct (is_transition self event);
        destruct (bool_decide (InputEvent.value event = 0)); cbn;
        rewrite ?lookup_delete_ne by done;
        by rewrite (bool_decide_eq_false_2 _ Htc), andb_false_r.
Qed.

Lemma run_keeps_unowed tc (ops : list (Op Hash Source)) self :
  Forall (λ op, is_press_of (_handled_input_hashes self) tc op = false) ops →
  _requires_a_release self !! tc ≠ Some true →
  Forall (λ c, release_absorbed_not_emitted
                 (_handled_input_hashes self) tc c = true)
    (run sub_notify sub_reset ops self).1.
Proof.
  revert self. induction ops as [|op ops IH]; intros self Hops Hreq.
  - constructor.
  - apply Forall_cons in Hops as [Hop Hops]. cbn [run].
    destruct (exec_keeps_unowed tc op self Hop Hreq) as [Hreq' Hcall].
    pose proof (exec_handled_input_hashes op self) as Hhashes.
    destruct (exec sub_notify sub_reset op self) as [c self'].
    cbn [fst snd] in *. specialize (IH self').
    rewrite Hhashes in IH. specialize (IH Hops Hreq').
    destruct (run sub_notify sub_reset ops self') as [log self''].
    by constructor.
Qed.

Lemma exec_forwarded_pending tc (op : Op Hash Source) self (pending : bool) :
  (_requires_a_release self !! tc = Some true → pending = true) →
  _requires_a_release (exec sub_notify sub_reset op self).2 !! tc = Some true →
  forwarded_step (_handled_input_hashes self) tc pending
    (exec sub_notify sub_reset op self).1 = true.
Proof.
  intros Hinv. destruct op as [event source suppress|]; cbn [exec].
  2: { by rewrite reset_spec. }
  destruct (decide (InputEvent.input_match_hash event
                      ∈ _handled_input_hashes self)) as [Hin|Hnot].
  2: { rewrite notify_unhandled by done. cbn.
       by rewrite (bool_decide_eq_false_2 _ Hnot). }
  rewrite notify_eq by done. cbv zeta.
  set (self1 := mkHandler _ _ _ _ _ _).
  destruct (decide (InputEvent.type_and_code event = tc)) as [Htc|Htc].
  - destruct (bool_decide (InputEvent.value event = 1)) eqn:Hv.
    + destruct (is_transition self event); [destruct suppress|];
        cbn [fst snd forwarded_step];
        rewrite (bool_decide_eq_true_2 _ Hin), (bool_decide_eq_true_2 _ Htc),
          Hv, ?Htc; cbn [_requires_a_release andb negb];
        rewrite ?lookup_insert_eq; try done; by intros [= ->].
    + destruct (is_transition self event);
        destruct (bool_decide (InputEvent.value event = 0));
        cbn [fst snd forwarded_step];
        rewrite (bool_decide_eq_true_2 _ Hin), (bool_decide_eq_true_2 _ Htc),
          ?Htc; cbn [_requires_a_release];
        rewrite ?lookup_delete_eq; done.
  - assert (∀ out, emits_release tc (out ++ [SubNotify event source false])
                   = emits_release tc out) as Hsub.
    { intros out. rewrite emits_release_app. cbn. apply orb_false_r. }
    destruct (bool_decide (InputEvent.value event = 1)) eqn:Hv.
    + destruct (is_transition self event); [destruct suppress|];
        cbn [fst snd forwarded_step];
        rewrite (bool_decide_eq_true_2 _ Hin), (bool_decide_eq_false_2 _ Htc);
        cbn [_requires_a_release].
      * intros Hreq. by rewrite (Hinv Hreq).
      * rewrite lookup_insert_ne, Hsub by done. intros Hlook.
        apply forward_release_result_lookup in Hlook as [Hreq ->].
        by rewrite (Hinv Hreq).
      * rewrite lookup_insert_ne by done. intros Hreq.
        by rewrite (Hinv Hreq).
    + destruct (is_transition self event);
        destruct (bool_decide (InputEvent.value event = 0));
        cbn [fst snd forwarded_step];
        rewrite (bool_decide_eq_true_2 _ Hin), (bool_decide_eq_false_2 _ Htc);
        cbn [_requires_a_release];
        rewrite ?lookup_delete_ne by done;
        intros Hreq; by rewrite (Hinv Hreq).
Qed.

Lemma run_forwarded_pending tc (ops : list (Op Hash Source)) self
    (pending : bool) :
  (_requires_a_release self !! tc = Some true → pending = true) →
  _requires_a_release (run sub_notify sub_reset ops self).2 !! tc = Some true →
  foldl (forwarded_step (_handled_input_hashes self) tc) pending
    (run sub_notify sub_reset ops self).1 = true.
Proof.
  revert self pending.
  induction ops as [|op ops IH]; intros self pending Hinv.
  - exact Hinv.
  - cbn [run].
    pose proof (exec_forwarded_pending tc op self pending Hinv) as Hstep.
    pose proof (exec_handled_input_hashes op self) as Hhashes.
    destruct (exec sub_notify sub_reset op self) as [c self'].
    cbn [fst snd] in *.
    specialize (IH self'
      (forwarded_step (_handled_input_hashes self) tc pending c) Hstep).
    rewrite Hhashes in IH.
    destruct (run sub_notify sub_reset ops self') as [log self''].
    exact IH.
Qed.

Lemma exec_forwarded_pending_conv tc (op : Op Hash Source) self
    (pending : bool) :
  is_suppressed op = false →
  (pending = true → _requires_a_release self !! tc = Some true) →
  forwarded_step (_handled_input_hashes self) tc pending
    (exec sub_notify sub_reset op self).1 = true →
  _requires_a_release (exec sub_notify sub_reset op self).2 !! tc = Some true.
Proof.
  intros Hsup Hinv. destruct op as [event source suppress|]; cbn [exec].
  2: { by rewrite reset_spec. }
  cbn in Hsup. subst suppress.
  destruct (decide (InputEvent.input_match_hash event
                      ∈ _handled_input_hashes self)) as [Hin|Hnot].
  2: { rewrite notify_unhandled by done. cbn.
       by rewrite (bool_decide_eq_false_2 _ Hnot). }
  rewrite notify_eq by done. cbv zeta.
  set (self1 := mkHandler (mapping self)
                  (<[InputEvent.input_match_hash event
                     := bool_decide (InputEvent.value event = 1)]>
                     (_pressed_keys self))
                  (_output_previously_active self) (_sub_handler self)
                  (_handled_input_hashes self) (_requires_a_release self)).
  destruct (decide (InputEvent.type_and_code event = tc)) as [Htc|Htc].
  - destruct (bool_decide (InputEvent.value event = 1)) eqn:Hv.
    + destruct (is_transition self event);
        cbn [fst snd forwarded_step];
        rewrite (bool_decide_eq_true_2 _ Hin), (bool_decide_eq_true_2 _ Htc),
          Hv, ?Htc; cbn [_requires_a_release andb];
        rewrite lookup_insert_eq; by intros ->.
    + destruct (is_transition self event);
        destruct (bool_decide (InputEvent.value event = 0));
        cbn [fst snd forwarded_step];
        rewrite (bool_decide_eq_true_2 _ Hin), (bool_decide_eq_true_2 _ Htc),
          ?Hv;
        cbn [_requires_a_release]; (done || apply Hinv).
  - assert (∀ out, emits_release tc (out ++ [SubNotify event source false])
                   = emits_release tc out) as Hsub.
    { intros out. rewrite emits_release_app. cbn. apply orb_false_r. }
    destruct (bool_decide (InputEvent.value event = 1)) eqn:Hv.
    + destruct (is_transition self event);
        cbn [fst snd forwarded_step];
        rewrite (bool_decide_eq_true_2 _ Hin), (bool_decide_eq_false_2 _ Htc);
        cbn [_requires_a_release]; rewrite lookup_insert_ne by done.
      * rewrite Hsub, andb_true_iff, negb_true_iff. intros [Hp Hemit].
        apply forward_release_result_lookup_kept; [|done]. by apply Hinv.
      * rewrite andb_true_r. apply Hinv.
    + destruct (is_transition self event);
        destruct (bool_decide (InputEvent.value event = 0));
        cbn [fst snd forwarded_step];
        rewrite (bool_decide_eq_true_2 _ Hin), (bool_decide_eq_false_2 _ Htc);
        cbn [_requires_a_release emits_release existsb is_release_of orb negb];
        rewrite ?lookup_delete_ne, andb_true_r by done; apply Hinv.
Qed.

Lemma run_forwarded_pending_conv tc (ops : list (Op Hash Source)) self
    (pending : bool) :
  Forall (λ op, is_suppressed op = false) ops →
  (pending = true → _requires_a_release self !! tc = Some true) →
  foldl (forwarded_step (_handled_input_hashes self) tc) pending
    (run sub_notify sub_reset ops self).1 = true →
  _requires_a_release (run sub_notify sub_reset ops self).2 !! tc = Some true.
Proof.
  revert self pending.
  induction ops as [|op ops IH]; intros self pending Hops Hinv.
  - exact Hinv.
  - apply Forall_cons in Hops as [Hop Hops]. cbn [run].
    pose proof (exec_forwarded_pending_conv tc op self pending Hop Hinv)
      as Hstep.
    pose proof (exec_handled_input_hashes op self) as Hhashes.
    destruct (exec sub_notify sub_reset op self) as [c self'].
    cbn [fst snd] in *.
    specialize (IH self'
      (forwarded_step (_handled_input_hashes self) tc pending c) Hops Hstep).
    rewrite Hhashes in IH.
    destruct (run sub_notify sub_reset ops self') as [log self''].
    exact IH.
Qed.

(** C1, amended. (1) A press that [notify] absorbs leaves the entry of its
    [(type, code)] in the requires map false, not true; in every later
    sequence of calls ([notify] with any events, [reset]) that holds no
    further handled press of that [(type, code)], no release of it is
    written to a uinput and every handled release event of it is absorbed:
    the matching release is absorbed and never emitted.
    (2) From a freshly constructed handler, the entry of a [(type, code)] is
    true only while a press of it that [notify] let through has not been
    followed by another handled event of it, by a release of it written by
    [_forward_release], or by a reset; and it is true exactly then when no
    call passed the [suppress] hint. *)
Theorem release_balance :
  (∀ self event source suppress self' out (ops : list (Op Hash Source)),
     InputEvent.value event = 1 →
     notify sub_notify event source suppress self = (Ok true, self', out) →
     Forall (λ op, is_press_of (_handled_input_hashes self)
                     (InputEvent.type_and_code event) op = false) ops →
     _requires_a_release self' !! InputEvent.type_and_code event = Some false
     ∧ Forall (λ c, release_absorbed_not_emitted (_handled_input_hashes self)
                      (InputEvent.type_and_code event) c = true)
         (run sub_notify sub_reset ops self').1)
  ∧ (∀ (combination : list Config) (mapping : Mapping.t Hash Origin)
       (sub : SubHandler) (handler : Handler)
       (ops : list (Op Hash Source)) tc,
       __init__ combination mapping sub = Ok handler →
       (_requires_a_release (run sub_notify sub_reset ops handler).2 !! tc
        = Some true →
        forwarded_press_pending (_handled_input_hashes handler) tc
          (run sub_notify sub_reset ops handler).1 = true)
       ∧ (Forall (λ op, is_suppressed op = false) ops →
          forwarded_press_pending (_handled_input_hashes handler) tc
            (run sub_notify sub_reset ops handler).1 = true →
          _requires_a_release (run sub_notify sub_reset ops handler).2 !! tc
          = Some true)).
Proof.
  split.
  - intros self event source suppress self' out ops Hv Hnotify Hops.
    assert (_requires_a_release self' !! InputEvent.type_and_code event
            = Some false
            ∧ _handled_input_hashes self' = _handled_input_hashes self)
      as [Hreq Hhashes].
    { destruct (decide (InputEvent.input_match_hash event
                          ∈ _handled_input_hashes self)) as [Hin|Hnot].
      2: { by rewrite notify_unhandled in Hnotify. }
      rewrite notify_eq in Hnotify by done. cbv zeta in Hnotify.
      rewrite (bool_decide_eq_true_2 _ Hv) in Hnotify.
      destruct (is_transition self event);
        [destruct suppress; [discriminate Hnotify|]|];
        injection Hnotify as Hr <- <-; cbn;
        by rewrite Hr, lookup_insert_eq. }
    split; [done|]. rewrite <- Hhashes.
    apply run_keeps_unowed; [by rewrite Hhashes|by rewrite Hreq].
  - intros combination mapping sub handler ops tc Hinit.
    assert (_requires_a_release handler = ∅) as Hfresh.
    { unfold __init__ in Hinit. repeat case_match; try done.
      by injection Hinit as <-. }
    split.
    + apply run_forwarded_pending. by rewrite Hfresh, lookup_empty.
    + intros Hops. by apply run_forwarded_pending_conv.
Qed.

(** ** The key set of the pressed map *)

Lemma init_pressed_keys_dom (combination : list Config) :
  dom (init_pressed_keys combination)
  = list_to_set (InputConfig.input_match_hash <$> combination).
Proof.
  unfold init_pressed_keys.
  enough (∀ m : gmap Hash bool,
            dom (foldl (λ m cfg, <[InputConfig.input_match_hash cfg := false]> m)
                   m combination)
            = dom m ∪ list_to_set (InputConfig.input_match_hash <$> combination))
    as Hgen by (rewrite Hgen, dom_empty_L; set_solver).
  induction combination as [|cfg rest IH]; intros m; cbn.
  - set_solver.
  - rewrite IH, dom_insert_L. set_solver.
Qed.

Lemma exec_pressed_keys_dom (op : Op Hash Source) self :
  (∀ h, h ∈ _handled_input_hashes self → h ∈ dom (_pressed_keys self)) →
  dom (_pressed_keys (exec sub_notify sub_reset op self).2)
  = dom (_pressed_keys self).
Proof.
  intros Hdom. destruct op as [event source suppress|]; cbn [exec].
  - destruct (decide (InputEvent.input_match_hash event
                        ∈ _handled_input_hashes self)) as [Hin|Hnot].
    + specialize (Hdom _ Hin). rewrite notify_eq by done. cbv zeta.
      assert (dom (<[InputEvent.input_match_hash event
                     := bool_decide (InputEvent.value event = 1)]>
                   (_pressed_keys self)) = dom (_pressed_keys self)) as Hsame
        by (rewrite dom_insert_L; set_solver).
      repeat case_match; simplify_eq; exact Hsame.
    + by rewrite notify_unhandled.
  - rewrite reset_spec. cbn. apply dom_fmap_L.
Qed.

Lemma run_pressed_keys_dom (ops : list (Op Hash Source)) self :
  (∀ h, h ∈ _handled_input_hashes self → h ∈ dom (_pressed_keys self)) →
  dom (_pressed_keys (run sub_notify sub_reset ops self).2)
  = dom (_pressed_keys self).
Proof.
  revert self. induction ops as [|op ops IH]; intros self Hdom; [done|].
  cbn [run].
  pose proof (exec_pressed_keys_dom op self Hdom) as Hstep.
  pose proof (exec_handled_input_hashes op self) as Hhashes.
  destruct (exec sub_notify sub_reset op self) as [c self']. cbn [snd] in *.
  specialize (IH self'). rewrite Hstep, Hhashes in IH.
  destruct (run sub_notify sub_reset ops self') as [log self''].
  by apply IH.
Qed.

(** The [len(self._pressed_keys)] that [_forward_release] tests is, at any
    time, the number of keys of the combination the handler was built for,
    provided their hashes are pairwise distinct. *)
Lemma pressed_keys_size (combination : list Config)
    (mapping : Mapping.t Hash Origin) (sub : SubHandler) (handler : Handler)
    (ops : list (Op Hash Source)) :
  __init__ combination mapping sub = Ok handler →
  NoDup (InputConfig.input_match_hash <$> combination) →
  size (_pressed_keys (run sub_notify sub_reset ops handler).2)
  = length combination.
Proof.
  intros Hinit Hnd. unfold __init__ in Hinit.
  repeat case_match; try done. injection Hinit as <-.
  rewrite <- size_dom, run_pressed_keys_dom.
  - cbn. rewrite init_pressed_keys_dom, size_list_to_set by done.
    apply length_fmap.
  - cbn. intros h Hh. rewrite init_pressed_keys_dom. set_solver.
Qed.

(** ** The two-key scenario *)

(** C2. A fresh handler over the combination [A, B] with
    [release_combination_keys] set and a sub-handler that always answers
    true: the calls [A] down, [B] down, [B] up, [A] up return false, true,
    true, true; the call for [B] down writes exactly one release of [A]
    followed by [syn] on the uinput of [A]'s origin, before the sub-handler
    is notified; the sub-handler is notified on [B] down and [B] up only. *)
Theorem two_key_scenario (cfg_A cfg_B : Config) (origin : Origin)
    (sub : SubHandler) source :
  (∀ event source suppress sub,
     (sub_notify event source suppress sub).1 = true) →
  InputConfig.input_match_hash cfg_A ≠ InputConfig.input_match_hash cfg_B →
  InputConfig.defines_analog_input cfg_A = false →
  InputConfig.defines_analog_input cfg_B = false →
  InputConfig.origin_hash cfg_A = Some origin →
  ∃ handler,
    __init__ [cfg_A; cfg_B] (Mapping.mk [cfg_A; cfg_B] true) sub = Ok handler
    ∧ (run sub_notify sub_reset
         [OpNotify (event_of cfg_A 1) source false;
          OpNotify (event_of cfg_B 1) source false;
          OpNotify (event_of cfg_B 0) source false;
          OpNotify (event_of cfg_A 0) source false] handler).1
      = [NotifyCall (event_of cfg_A 1) false (Ok false) [];
         NotifyCall (event_of cfg_B 1) false (Ok true)
           [UInputWrite origin (InputConfig.type cfg_A)
              (InputConfig.code cfg_A) 0;
            UInputSyn origin;
            SubNotify (event_of cfg_B 1) source false];
         NotifyCall (event_of cfg_B 0) false (Ok true)
           [SubNotify (event_of cfg_B 0) source false];
         NotifyCall (event_of cfg_A 0) false (Ok true) []].
Proof.
  intros Hsub Hne HanA HanB Horigin.
  set (hA := InputConfig.input_match_hash cfg_A) in *.
  set (hB := InputConfig.input_match_hash cfg_B) in *.
  set (tcA := InputConfig.type_and_code cfg_A).
  set (tcB := InputConfig.type_and_code cfg_B).
  eexists. split.
  { unfold __init__. cbn [existsb]. rewrite HanA, HanB. cbn [orb].
    cbv zeta. rewrite bool_decide_eq_true_2; [reflexivity|].
    cbn. fold hA hB. rewrite map_size_insert_None.
    - lia.
    - by rewrite lookup_insert_ne, lookup_empty. }
  cbn [init_pressed_keys foldl]. fold hA hB.
  set (P0 := <[hB := false]> (<[hA := false]> (∅ : gmap Hash bool))).
  set (mp := Mapping.mk [cfg_A; cfg_B] true).
  set (hashes := InputConfig.input_match_hash <$> [cfg_A; cfg_B]).
  set (sub2 := (sub_notify (event_of cfg_B 1) source false sub).2).
  set (sub3 := (sub_notify (event_of cfg_B 0) source false sub2).2).
  set (s1 := mkHandler mp (<[hA := true]> P0) false sub hashes
               (<[tcA := true]> ∅)).
  set (s2 := mkHandler mp (<[hB := true]> (<[hA := true]> P0)) true sub2
               hashes (<[tcB := false]> ∅)).
  set (s3 := mkHandler mp (<[hB := false]> (<[hB := true]> (<[hA := true]> P0)))
               false sub3 hashes (delete tcB (<[tcB := false]> ∅))).
  assert (hA ∈ hashes) as HinA by (by constructor).
  assert (hB ∈ hashes) as HinB by (by do 2 constructor).
  (* A down: the combination is incomplete, the press goes through *)
  assert (notify sub_notify (event_of cfg_A 1) source false
            (mkHandler mp P0 false sub hashes ∅)
          = (Ok false, s1, [])) as H1.
  { rewrite notify_eq by done.
    assert (is_transition (mkHandler mp P0 false sub hashes ∅)
              (event_of cfg_A 1) = false) as ->.
    { unfold is_transition, activated_after. cbn. fold hA.
      rewrite (all_pressed_false _ hB); [done|].
      unfold P0. by rewrite lookup_insert_ne, lookup_insert_eq. }
    done. }
  (* B down: fresh activation, A is released on its uinput *)
  assert (notify sub_notify (event_of cfg_B 1) source false s1
          = (Ok true, s2,
             [UInputWrite origin (InputConfig.type cfg_A)
                (InputConfig.code cfg_A) 0;
              UInputSyn origin;
              SubNotify (event_of cfg_B 1) source false])) as H2.
  { rewrite notify_eq by done.
    assert (is_transition s1 (event_of cfg_B 1) = true) as ->.
    { unfold is_transition, activated_after. cbn. fold hB.
      rewrite (proj2 (all_pressed_spec _)); [done|].
      intros k b. unfold P0.
      rewrite !lookup_insert. repeat case_decide; naive_solver. }
    rewrite (bool_decide_eq_true_2 (InputEvent.value (event_of cfg_B 1) = 1))
      by done.
    cbv beta iota zeta.
    cbn [_pressed_keys _requires_a_release mapping _output_previously_active
         _sub_handler _handled_input_hashes s1 InputEvent.input_match_hash
         event_of InputEvent.type_and_code InputEvent.type InputEvent.code].
    fold hB. unfold forward_release_result.
    cbn [_pressed_keys _requires_a_release mapping
         Mapping.release_combination_keys Mapping.input_combination mp negb].
    rewrite bool_decide_eq_false_2.
    2: { unfold P0. rewrite !map_size_insert, !lookup_insert, lookup_empty.
         rewrite map_size_empty. repeat case_decide; try done; cbn; lia. }
    cbn [orb release_sweep]. fold hA hB tcA tcB.
    rewrite (lookup_insert_ne _ hB hA) by done.
    rewrite !lookup_insert_eq. cbn [truthy andb]. rewrite Horigin.
    rewrite delete_insert_eq, delete_empty, lookup_empty.
    cbn [truthy andb fst snd app]. by rewrite Hsub. }
  (* B up: fresh deactivation, the release is absorbed *)
  assert (notify sub_notify (event_of cfg_B 0) source false s2
          = (Ok true, s3, [SubNotify (event_of cfg_B 0) source false])) as H3.
  { rewrite notify_eq by done.
    rewrite is_transition_release by done.
    rewrite (bool_decide_eq_false_2 (InputEvent.value (event_of _ 0) = 1))
      by done.
    rewrite (bool_decide_eq_true_2 (InputEvent.value (event_of _ 0) = 0))
      by done.
    cbv beta iota zeta.
    cbn [_pressed_keys _requires_a_release mapping _output_previously_active
         _sub_handler _handled_input_hashes s2 InputEvent.input_match_hash
         event_of InputEvent.type_and_code InputEvent.type InputEvent.code].
    fold hB tcB. by rewrite lookup_insert_eq. }
  (* A up: nothing is owed for A any more, the release is absorbed *)
  assert (∃ s4, notify sub_notify (event_of cfg_A 0) source false s3
                = (Ok true, s4, [])) as [s4 H4].
  { eexists. rewrite notify_eq by done.
    rewrite is_transition_release by done.
    rewrite (bool_decide_eq_false_2 (InputEvent.value (event_of _ 0) = 1))
      by done.
    rewrite (bool_decide_eq_true_2 (InputEvent.value (event_of _ 0) = 0))
      by done.
    cbv beta iota zeta.
    cbn [_pressed_keys _requires_a_release mapping _output_previously_active
         _sub_handler _handled_input_hashes s3 InputEvent.input_match_hash
         event_of InputEvent.type_and_code InputEvent.type InputEvent.code].
    fold hA tcA. rewrite delete_insert_eq, delete_empty, lookup_empty.
    reflexivity. }
  cbn [run exec]. by rewrite H1, H2, H3, H4.
Qed.


(** * Further properties of the combination handler *)

(** ** Values other than 0 and 1 *)

(** X1. [notify] raises only [AssertionError], and only for a handled event
    whose value is neither 0 nor 1. For such an event it always raises, but
    not before it has stored [False] for the key in the pressed map and, when
    the output was active, has notified the sub-handler (with
    [suppress = False]); the requires map and [_output_previously_active]
    are as before. *)
Theorem notify_raises_on_other_values self event source suppress :
  (∀ e, (notify sub_notify event source suppress self).1.1 = Raise e →
        e = AssertionError
        ∧ InputEvent.input_match_hash event ∈ _handled_input_hashes self
        ∧ InputEvent.value event ≠ 0 ∧ InputEvent.value event ≠ 1)
  ∧ (InputEvent.input_match_hash event ∈ _handled_input_hashes self →
     InputEvent.value event ≠ 0 → InputEvent.value event ≠ 1 →
     notify sub_notify event source suppress self
     = (Raise AssertionError,
        mkHandler (mapping self)
          (<[InputEvent.input_match_hash event := false]> (_pressed_keys self))
          (_output_previously_active self)
          (if _output_previously_active self
           then (sub_notify event source false (_sub_handler self)).2
           else _sub_handler self)
          (_handled_input_hashes self) (_requires_a_release self),
        if _output_previously_active self
        then [SubNotify event source false] else [])).
Proof.
  split.
  - intros e.
    destruct (decide (InputEvent.input_match_hash event
                        ∈ _handled_input_hashes self)) as [Hin|Hnot].
    2: { by rewrite notify_unhandled. }
    rewrite notify_eq by done. cbv zeta.
    destruct (bool_decide (InputEvent.value event = 1)) eqn:H1.
    { destruct (is_transition self event); [destruct suppress|]; done. }
    destruct (bool_decide (InputEvent.value event = 0)) eqn:H0.
    { by destruct (is_transition self event). }
    apply bool_decide_eq_false in H1, H0.
    destruct (is_transition self event); cbn; by intros [= <-].
  - intros Hin H0 H1. rewrite notify_eq by done. cbv zeta.
    rewrite is_transition_release by done.
    rewrite (bool_decide_eq_false_2 _ H0), (bool_decide_eq_false_2 _ H1).
    by destruct (_output_previously_active self).
Qed.

(** ** What [notify] hands to its collaborators *)

Lemma sweep_only_releases (pressed : gmap Hash bool)
    (all cfgs : list Config) (requires : gmap (Z * Z) bool) out :
  (∀ cfg, cfg ∈ cfgs → cfg ∈ all) →
  only_releases all out →
  only_releases all ((sweep pressed cfgs requires).2 ++ out).
Proof.
  revert requires. induction cfgs as [|cfg rest IH]; intros requires Hsub Hout;
    [done|].
  assert (∀ cfg', cfg' ∈ rest → cfg' ∈ all) as Hrest
    by (intros cfg' Hin; apply Hsub; by constructor).
  cbn [release_sweep]. destruct (_ && _); [|by apply IH].
  destruct (InputConfig.origin_hash cfg) as [origin|] eqn:Horigin.
  - specialize (IH (delete (InputConfig.type_and_code cfg) requires)
                  Hrest Hout).
    destruct_sweep. cbn in *. split_and!; try done.
    exists cfg. split_and!; [apply Hsub; by constructor|done..].
  - specialize (IH requires Hrest Hout). by destruct_sweep.
Qed.

(** X2. Whatever the state and the event, the only thing [notify] writes to
    a uinput is a key-up of a config of the mapping's combination, on the
    uinput of that config's origin, each followed by [syn]; and it releases
    only a [(type, code)] whose entry in the requires map was true. It
    never writes a key-down. *)
Theorem notify_writes_only_releases self event source suppress :
  only_releases (Mapping.input_combination (mapping self))
    (notify sub_notify event source suppress self).2
  ∧ (∀ tc, emits_release tc (notify sub_notify event source suppress self).2
           = true →
           _requires_a_release self !! tc = Some true).
Proof.
  destruct (decide (InputEvent.input_match_hash event
                      ∈ _handled_input_hashes self)) as [Hin|Hnot].
  2: { by rewrite notify_unhandled. }
  rewrite notify_eq by done. cbv zeta.
  set (self1 := mkHandler (mapping self)
                  (<[InputEvent.input_match_hash event
                     := bool_decide (InputEvent.value event = 1)]>
                     (_pressed_keys self))
                  (_output_previously_active self) (_sub_handler self)
                  (_handled_input_hashes self) (_requires_a_release self)).
  destruct (bool_decide (InputEvent.value event = 1)).
  - destruct (is_transition self event); [destruct suppress|]; try done.
    cbn [snd]. split.
    + unfold forward_release_result. destruct (_ || _); [done|].
      by apply sweep_only_releases.
    + intros tc. rewrite emits_release_app. cbn. rewrite orb_false_r.
      intros Hemit. by apply forward_release_result_emits in Hemit.
  - destruct (is_transition self event);
      by destruct (bool_decide (InputEvent.value event = 0)).
Qed.

(** X3. Whatever the state and the caller's [suppress], the sub-handler is
    notified at most once per call, as the last thing the call does to its
    collaborators, about the very event of the call, with the caller's
    source and with [suppress = False]. *)
Theorem notify_sub_handler_call self event source suppress :
  ∃ writes,
    sub_calls writes = 0%nat
    ∧ ((notify sub_notify event source suppress self).2 = writes
       ∨ (notify sub_notify event source suppress self).2
         = writes ++ [SubNotify event source false]).
Proof.
  destruct (decide (InputEvent.input_match_hash event
                      ∈ _handled_input_hashes self)) as [Hin|Hnot].
  2: { rewrite notify_unhandled by done. exists []. by split; [|left]. }
  rewrite notify_eq by done. cbv zeta.
  set (self1 := mkHandler (mapping self)
                  (<[InputEvent.input_match_hash event
                     := bool_decide (InputEvent.value event = 1)]>
                     (_pressed_keys self))
                  (_output_previously_active self) (_sub_handler self)
                  (_handled_input_hashes self) (_requires_a_release self)).
  destruct (bool_decide (InputEvent.value event = 1)).
  - destruct (is_transition self event); [destruct suppress|].
    + exists []. by split; [|left].
    + exists (forward_release_result (Source := Source) self1).2.
      split; [apply forward_release_result_sub_calls|by right].
    + exists []. by split; [|left].
  - destruct (is_transition self event);
      destruct (bool_decide (InputEvent.value event = 0));
      exists []; (split; [done|]); (by left) || (by right).
Qed.

(** ** What a run from a constructed handler keeps fixed *)

Lemma init_pressed_keys_lookup (combination : list Config) k (b : bool) :
  init_pressed_keys combination !! k = Some b → b = false.
Proof.
  unfold init_pressed_keys.
  enough (∀ m : gmap Hash bool,
            (∀ b', m !! k = Some b' → b' = false) →
            foldl (λ m cfg, <[InputConfig.input_match_hash cfg := false]> m)
              m combination !! k = Some b → b = false)
    as Hgen by (apply Hgen; intros b'; by rewrite lookup_empty).
  induction combination as [|cfg rest IH]; intros m Hm; cbn.
  - apply Hm.
  - apply IH. intros b'. rewrite lookup_insert. case_decide; [|apply Hm].
    by intros [= <-].
Qed.

Lemma run_handled_input_hashes (ops : list (Op Hash Source)) self :
  _handled_input_hashes (run sub_notify sub_reset ops self).2
  = _handled_input_hashes self.
Proof.
  revert self. induction ops as [|op ops IH]; intros self; [done|].
  cbn [run]. pose proof (exec_handled_input_hashes op self) as Hstep.
  destruct (exec sub_notify sub_reset op self) as [c self']. cbn [snd] in *.
  specialize (IH self').
  destruct (run sub_notify sub_reset ops self') as [log self''].
  cbn [snd] in *. by rewrite IH.
Qed.

Lemma exec_mapping (op : Op Hash Source) self :
  mapping (exec sub_notify sub_reset op self).2 = mapping self.
Proof.
  destruct op as [event source suppress|]; cbn [exec].
  - destruct (decide (InputEvent.input_match_hash event
                        ∈ _handled_input_hashes self)) as [Hin|Hnot].
    + rewrite notify_eq by done. cbv zeta.
      repeat (match goal with |- context [if ?b then _ else _] =>
                destruct b end); done.
    + by rewrite notify_unhandled.
  - by rewrite reset_spec.
Qed.

Lemma run_mapping (ops : list (Op Hash Source)) self :
  mapping (run sub_notify sub_reset ops self).2 = mapping self.
Proof.
  revert self. induction ops as [|op ops IH]; intros self; [done|].
  cbn [run]. pose proof (exec_mapping op self) as Hstep.
  destruct (exec sub_notify sub_reset op self) as [c self']. cbn [snd] in *.
  specialize (IH self').
  destruct (run sub_notify sub_reset ops self') as [log self''].
  cbn [snd] in *. by rewrite IH.
Qed.

Lemma init_inv (combination : list Config) (mapping0 : Mapping.t Hash Origin)
    (sub : SubHandler) (handler : Handler) :
  __init__ combination mapping0 sub = Ok handler →
  handler
  = mkHandler mapping0 (init_pressed_keys combination) false sub
      (InputConfig.input_match_hash <$> combination) ∅
  ∧ init_pressed_keys combination ≠ ∅.
Proof.
  unfold __init__. case_match; [done|].
  destruct (bool_decide _) eqn:Hsize; [|done]. intros [= <-].
  split; [done|]. apply bool_decide_eq_true in Hsize. intros Hempty.
  rewrite Hempty, map_size_empty in Hsize. lia.
Qed.

(** X4. From construction on, whatever calls are made: the key set of the
    pressed map stays the set of the combination's hashes, and the handled
    hashes and the mapping stay what [__init__] stored. *)
Theorem run_keeps_shape (combination : list Config)
    (mapping0 : Mapping.t Hash Origin) (sub : SubHandler) (handler : Handler)
    (ops : list (Op Hash Source)) :
  __init__ combination mapping0 sub = Ok handler →
  let self := (run sub_notify sub_reset ops handler).2 in
  dom (_pressed_keys self)
  = list_to_set (InputConfig.input_match_hash <$> combination)
  ∧ _handled_input_hashes self = InputConfig.input_match_hash <$> combination
  ∧ mapping self = mapping0.
Proof.
  intros Hinit. apply init_inv in Hinit as [-> _]. cbv zeta.
  rewrite run_handled_input_hashes, run_mapping, run_pressed_keys_dom.
  - split_and!; try done. apply init_pressed_keys_dom.
  - cbn. intros h Hh. rewrite init_pressed_keys_dom. set_solver.
Qed.

(** X5. [reset] after any calls gives back the handler as [__init__] built
    it, up to the state of the sub-handler, which has been reset too. *)
Theorem reset_restores_constructed (combination : list Config)
    (mapping0 : Mapping.t Hash Origin) (sub : SubHandler) (handler : Handler)
    (ops : list (Op Hash Source)) :
  __init__ combination mapping0 sub = Ok handler →
  let self := (run sub_notify sub_reset ops handler).2 in
  (reset (Source := Source) sub_reset self).1.2
  = set_sub_handler (sub_reset (_sub_handler self)) handler.
Proof.
  intros Hinit. apply init_inv in Hinit as [-> _]. cbv zeta.
  rewrite reset_spec. cbn [fst snd set_sub_handler mapping _pressed_keys
    _output_previously_active _handled_input_hashes _requires_a_release].
  rewrite run_handled_input_hashes, run_mapping.
  unfold set_sub_handler. cbn. f_equal.
  apply map_eq. intros k. rewrite lookup_fmap.
  assert (dom (_pressed_keys
                 (run sub_notify sub_reset ops
                    (mkHandler mapping0 (init_pressed_keys combination) false
                       sub (InputConfig.input_match_hash <$> combination) ∅)).2)
          = dom (init_pressed_keys combination)) as Hdom.
  { rewrite run_pressed_keys_dom; [done|].
    cbn. intros h Hh. rewrite init_pressed_keys_dom. set_solver. }
  destruct (init_pressed_keys combination !! k) as [b|] eqn:Hk.
  - apply init_pressed_keys_lookup in Hk as Hb. subst b.
    assert (k ∈ dom (init_pressed_keys combination)) as Hin
      by (apply elem_of_dom; eauto).
    rewrite <- Hdom in Hin. apply elem_of_dom in Hin as [b' ->]. done.
  - assert (k ∉ dom (init_pressed_keys combination)) as Hnot
      by (by apply not_elem_of_dom).
    rewrite <- Hdom in Hnot. apply not_elem_of_dom in Hnot. by rewrite Hnot.
Qed.

(** ** The output flag and the pressed map *)

Lemma all_pressed_insert_true (pressed : gmap Hash bool) (k : Hash) :
  all_pressed pressed = true → all_pressed (<[k := true]> pressed) = true.
Proof.
  rewrite !all_pressed_spec. intros Hall k' b. rewrite lookup_insert.
  case_decide; [by intros [= <-]|apply Hall].
Qed.

Lemma all_pressed_fmap_false (pressed : gmap Hash bool) :
  pressed ≠ ∅ → all_pressed ((λ _, false) <$> pressed) = false.
Proof.
  intros Hne. apply map_choose in Hne as (k & b & Hk).
  apply (all_pressed_false _ k). by rewrite lookup_fmap, Hk.
Qed.

Lemma exec_output_inv (op : Op Hash Source) self :
  has_key_value op = true →
  _pressed_keys self ≠ ∅ →
  (_output_previously_active self = true →
   all_pressed (_pressed_keys self) = true) →
  let self' := (exec sub_notify sub_reset op self).2 in
  _pressed_keys self' ≠ ∅
  ∧ (_output_previously_active self' = true →
     all_pressed (_pressed_keys self') = true)
  ∧ (is_suppressed op = false →
     _output_previously_active self = all_pressed (_pressed_keys self) →
     _output_previously_active self' = all_pressed (_pressed_keys self')).
Proof.
  intros Hvalue Hne Hinv. cbv zeta.
  destruct op as [event source suppress|]; cbn [exec].
  2: { rewrite reset_spec. cbn. split_and!; try done.
       - by intros ?%fmap_empty_inv.
       - intros _ _. by rewrite all_pressed_fmap_false. }
  destruct (decide (InputEvent.input_match_hash event
                      ∈ _handled_input_hashes self)) as [Hin|Hnot].
  2: { by rewrite notify_unhandled. }
  cbn in Hvalue. apply bool_decide_eq_true in Hvalue.
  rewrite notify_eq by done. cbv zeta.
  pose proof (eq_refl (is_transition self event)) as Htr.
  unfold is_transition at 2, activated_after in Htr.
  destruct (decide (InputEvent.value event = 1)) as [H1|H1].
  - rewrite (bool_decide_eq_true_2 _ H1) in *.
    destruct (all_pressed (<[InputEvent.input_match_hash event := true]>
                             (_pressed_keys self))) eqn:Hafter;
      destruct (_output_previously_active self) eqn:Hout; cbn in Htr;
      rewrite Htr; try destruct suppress; cbn;
      rewrite ?Hafter; split_and!; try done;
      try (by apply insert_non_empty).
    all: exfalso; specialize (Hinv eq_refl);
      apply (all_pressed_insert_true _ (InputEvent.input_match_hash event))
        in Hinv; congruence.
  - assert (InputEvent.value event = 0) as H0 by (by destruct Hvalue).
    rewrite (bool_decide_eq_false_2 _ H1), (bool_decide_eq_true_2 _ H0) in *.
    rewrite all_pressed_insert_false in Htr.
    destruct (_output_previously_active self) eqn:Hout; cbn in Htr;
      rewrite Htr; cbn; rewrite all_pressed_insert_false;
      split_and!; try done; by apply insert_non_empty.
Qed.

Lemma run_output_inv (ops : list (Op Hash Source)) self :
  Forall (λ op, has_key_value op = true) ops →
  _pressed_keys self ≠ ∅ →
  (_output_previously_active self = true →
   all_pressed (_pressed_keys self) = true) →
  let self' := (run sub_notify sub_reset ops self).2 in
  (_output_previously_active self' = true →
   all_pressed (_pressed_keys self') = true)
  ∧ (Forall (λ op, is_suppressed op = false) ops →
     _output_previously_active self = all_pressed (_pressed_keys self) →
     _output_previously_active self' = all_pressed (_pressed_keys self')).
Proof.
  intros Hops. revert self.
  induction Hops as [|op ops Hop Hops IH]; intros self Hne Hweak; [done|].
  cbv zeta. cbn [run].
  destruct (exec_output_inv op self Hop Hne Hweak) as (Hne' & Hweak' & Hstep).
  destruct (exec sub_notify sub_reset op self) as [c self']. cbn [snd] in *.
  specialize (IH self' Hne' Hweak'). cbv zeta in IH.
  destruct (run sub_notify sub_reset ops self') as [log self''].
  cbn [snd] in *. destruct IH as [IH1 IH2]. split; [done|].
  intros [Hsup Hrest]%Forall_cons Hstrict. apply IH2; [done|].
  by apply Hstep.
Qed.

(** X6. From construction on, as long as every event carries the value 0 or
    1, [_output_previously_active] is true only while every value of the
    pressed map is true; and when no call passes the [suppress] hint, it is
    true exactly then. *)
Theorem output_active_iff_all_pressed (combination : list Config)
    (mapping0 : Mapping.t Hash Origin) (sub : SubHandler) (handler : Handler)
    (ops : list (Op Hash Source)) :
  __init__ combination mapping0 sub = Ok handler →
  Forall (λ op, has_key_value op = true) ops →
  let self := (run sub_notify sub_reset ops handler).2 in
  (_output_previously_active self = true →
   all_pressed (_pressed_keys self) = true)
  ∧ (Forall (λ op, is_suppressed op = false) ops →
     _output_previously_active self = all_pressed (_pressed_keys self)).
Proof.
  intros Hinit Hops. apply init_inv in Hinit as [-> Hne]. cbv zeta.
  set (handler := mkHandler _ _ _ _ _ _).
  destruct (run_output_inv ops handler Hops Hne) as [Hweak Hstrict]; [done|].
  split; [done|]. intros Hsup. apply Hstrict; [done|].
  cbn. symmetry. apply map_choose in Hne as (k & b & Hk).
  apply (all_pressed_false _ k).
  by rewrite (init_pressed_keys_lookup _ _ _ Hk) in Hk.
Qed.

(** ** The release of a press that was let through *)

Lemma releases_written_none tc out :
  emits_release tc out = false → releases_written tc out = 0%nat.
Proof.
  unfold emits_release, releases_written.
  induction out as [|e out IH]; [done|]. cbn.
  destruct (is_release_of tc e); [done|]. apply IH.
Qed.

Lemma releases_written_app tc out1 out2 :
  releases_written tc (out1 ++ out2)
  = (releases_written tc out1 + releases_written tc out2)%nat.
Proof. unfold releases_written. by rewrite List.filter_app, length_app. Qed.

(** The sweep writes the release of an owed [(type, code)] at most once, and
    clears the entry exactly when it does. *)
Lemma sweep_written (pressed : gmap Hash bool) (cfgs : list Config)
    (requires : gmap (Z * Z) bool) tc :
  requires !! tc = Some true →
  ((sweep pressed cfgs requires).1 !! tc = Some true
   ∧ releases_written tc (sweep pressed cfgs requires).2 = 0%nat)
  ∨ ((sweep pressed cfgs requires).1 !! tc = None
     ∧ releases_written tc (sweep pressed cfgs requires).2 = 1%nat).
Proof.
  revert requires. induction cfgs as [|cfg rest IH]; intros requires Hreq;
    [by left|].
  cbn [release_sweep]. destruct (_ && _); [|by apply IH].
  destruct (InputConfig.origin_hash cfg) as [origin|].
  - destruct (decide (InputConfig.type_and_code cfg = tc)) as [Htc|Htc].
    + right. subst tc.
      set (tc := InputConfig.type_and_code cfg) in *.
      pose proof (sweep_emits pressed rest (delete tc requires) tc) as Hemits.
      pose proof (sweep_lookup pressed rest (delete tc requires) tc) as Hlook.
      rewrite lookup_delete_eq in Hemits, Hlook.
      destruct_sweep. cbn [fst snd] in *. split.
      * destruct (g !! tc) as [b|] eqn:Hg; [|done].
        by destruct (Hlook b eq_refl).
      * unfold releases_written. cbn [List.filter is_release_of].
        rewrite bool_decide_eq_true_2 by done. cbn. f_equal.
        apply releases_written_none.
        destruct (emits_release tc l) eqn:He; [|done].
        by specialize (Hemits eq_refl).
    + specialize (IH (delete (InputConfig.type_and_code cfg) requires)).
      rewrite lookup_delete_ne in IH by done. specialize (IH Hreq).
      destruct_sweep. cbn [fst snd] in *.
      unfold releases_written in *. cbn [List.filter is_release_of].
      rewrite bool_decide_eq_false_2 by (by intros [? _]). done.
  - specialize (IH requires Hreq). by destruct_sweep.
Qed.

Lemma forward_release_result_written self tc :
  _requires_a_release self !! tc = Some true →
  ((forward_release_result (Source := Source) self).1 !! tc = Some true
   ∧ releases_written tc (forward_release_result (Source := Source) self).2
     = 0%nat)
  ∨ ((forward_release_result (Source := Source) self).1 !! tc = None
     ∧ releases_written tc (forward_release_result (Source := Source) self).2
       = 1%nat).
Proof.
  unfold forward_release_result. destruct (_ || _); [by left|].
  apply sweep_written.
Qed.

Lemma exec_settled tc (op : Op Hash Source) self :
  is_press_of (_handled_input_hashes self) tc op = false →
  _requires_a_release self !! tc ≠ Some true →
  let c := (exec sub_notify sub_reset op self).1 in
  _requires_a_release (exec sub_notify sub_reset op self).2 !! tc ≠ Some true
  ∧ (releases_written tc (call_out c)
     + release_let_through (_handled_input_hashes self) tc c = 0)%nat.
Proof.
  intros Hop Hreq. cbv zeta.
  destruct (exec_keeps_unowed tc op self Hop Hreq) as [Hreq' Hcall].
  split; [done|].
  destruct (exec sub_notify sub_reset op self) as [c self']. cbn [fst] in *.
  destruct c as [event suppress result out|out];
    cbn [call_out release_let_through release_absorbed_not_emitted] in *.
  - apply andb_true_iff in Hcall as [Hemit Hrel].
    apply negb_true_iff in Hemit. rewrite (releases_written_none _ _ Hemit).
    destruct result as [[]|]; try done. by destruct (_ && _ && _).
  - apply negb_true_iff in Hcall.
    by rewrite (releases_written_none _ _ Hcall).
Qed.

Lemma run_settled tc (ops : list (Op Hash Source)) self :
  Forall (λ op, is_press_of (_handled_input_hashes self) tc op = false) ops →
  _requires_a_release self !! tc ≠ Some true →
  _requires_a_release (run sub_notify sub_reset ops self).2 !! tc ≠ Some true
  ∧ releases_reaching_system (_handled_input_hashes self) tc
      (run sub_notify sub_reset ops self).1 = 0%nat.
Proof.
  revert self. induction ops as [|op ops IH]; intros self Hops Hreq; [done|].
  apply Forall_cons in Hops as [Hop Hops]. cbn [run].
  destruct (exec_settled tc op self Hop Hreq) as [Hreq' Hcount].
  pose proof (exec_handled_input_hashes op self) as Hhashes.
  destruct (exec sub_notify sub_reset op self) as [c self'].
  cbn [fst snd] in *. specialize (IH self').
  rewrite Hhashes in IH. specialize (IH Hops Hreq').
  destruct (run sub_notify sub_reset ops self') as [log self''].
  cbn [fst snd releases_reaching_system] in *.
  destruct IH as [IH1 IH2]. split; [done|]. lia.
Qed.

Lemma exec_owed tc (op : Op Hash Source) self :
  is_press_of (_handled_input_hashes self) tc op = false →
  is_reset op = false →
  _requires_a_release self !! tc = Some true →
  let c := (exec sub_notify sub_reset op self).1 in
  let self' := (exec sub_notify sub_reset op self).2 in
  let n := (releases_written tc (call_out c)
            + release_let_through (_handled_input_hashes self) tc c)%nat in
  ((_requires_a_release self' !! tc = Some true ∧ n = 0%nat)
   ∨ (_requires_a_release self' !! tc = None ∧ n = 1%nat))
  ∧ (is_release_event_of (_handled_input_hashes self) tc op = true →
     _requires_a_release self' !! tc = None).
Proof.
  intros Hop Hreset Hreq. cbv zeta.
  destruct op as [event source suppress|]; [|done]. cbn [exec].
  destruct (decide (InputEvent.input_match_hash event
                      ∈ _handled_input_hashes self)) as [Hin|Hnot].
  2: { rewrite notify_unhandled by done. cbn.
       rewrite (bool_decide_eq_false_2 _ Hnot). cbn. split; [by left|done]. }
  cbn in Hop. rewrite (bool_decide_eq_true_2 _ Hin) in Hop.
  rewrite notify_eq by done. cbv zeta.
  set (self1 := mkHandler (mapping self)
                  (<[InputEvent.input_match_hash event
                     := bool_decide (InputEvent.value event = 1)]>
                     (_pressed_keys self))
                  (_output_previously_active self) (_sub_handler self)
                  (_handled_input_hashes self) (_requires_a_release self)).
  cbn [is_release_event_of]. rewrite (bool_decide_eq_true_2 _ Hin).
  destruct (decide (InputEvent.type_and_code event = tc)) as [Htc|Htc].
  - rewrite (bool_decide_eq_true_2 _ Htc) in *. cbn in Hop. rewrite Hop.
    destruct (bool_decide (InputEvent.value event = 0)) eqn:H0.
    + destruct (is_transition self event); cbn;
        rewrite (bool_decide_eq_true_2 _ Hin), (bool_decide_eq_true_2 _ Htc),
          H0, Htc, Hreq, lookup_delete_eq; cbn; (split; [by right|done]).
    + destruct (is_transition self event); cbn; (split; [by left|done]).
  - rewrite (bool_decide_eq_false_2 _ Htc). cbn [andb].
    split; [|done].
    assert (∀ r out, release_let_through (_handled_input_hashes self) tc
                       (NotifyCall event suppress r out) = 0%nat) as Hlet.
    { intros r out. cbn. rewrite (bool_decide_eq_false_2 _ Htc), andb_false_r.
      by destruct r as [[]|]. }
    destruct (bool_decide (InputEvent.value event = 1)).
    + destruct (is_transition self event); [destruct suppress|];
        cbn [fst snd call_out _requires_a_release]; rewrite Hlet.
      * by left.
      * rewrite lookup_insert_ne, releases_written_app by done.
        destruct (forward_release_result_written self1 tc Hreq)
          as [[-> ->]|[-> ->]]; [by left|by right].
      * rewrite lookup_insert_ne by done. by left.
    + destruct (is_transition self event);
        destruct (bool_decide (InputEvent.value event = 0));
        cbn [fst snd call_out _requires_a_release]; rewrite Hlet,
          ?lookup_delete_ne by done; by left.
Qed.

(** X7. A press that [notify] lets through without the [suppress] hint gets
    exactly one release. In every later sequence of [notify] calls that holds
    no further handled press of that [(type, code)]: either the requires
    entry is still true and no release of it has reached the system, or the
    entry is gone and exactly one has, written by the handler to a uinput or
    let through by [notify], never both. Once a handled release event of
    that [(type, code)] has arrived, it is exactly one. *)
Theorem forwarded_press_released_once self event source self' out
    (ops : list (Op Hash Source)) :
  InputEvent.input_match_hash event ∈ _handled_input_hashes self →
  InputEvent.value event = 1 →
  notify sub_notify event source false self = (Ok false, self', out) →
  Forall (λ op, is_press_of (_handled_input_hashes self)
                  (InputEvent.type_and_code event) op = false) ops →
  Forall (λ op, is_reset op = false) ops →
  let tc := InputEvent.type_and_code event in
  let final := (run sub_notify sub_reset ops self').2 in
  let n := releases_reaching_system (_handled_input_hashes self) tc
             (run sub_notify sub_reset ops self').1 in
  ((_requires_a_release final !! tc = Some true ∧ n = 0%nat)
   ∨ (_requires_a_release final !! tc ≠ Some true ∧ n = 1%nat))
  ∧ (Exists (λ op, is_release_event_of (_handled_input_hashes self) tc op
                   = true) ops →
     n = 1%nat).
Proof.
  intros Hin Hv Hnotify Hops Hresets. cbv zeta.
  set (tc := InputEvent.type_and_code event) in *.
  assert (_requires_a_release self' !! tc = Some true
          ∧ _handled_input_hashes self' = _handled_input_hashes self)
    as [Hreq Hhashes].
  { rewrite notify_eq in Hnotify by done. cbv zeta in Hnotify.
    rewrite (bool_decide_eq_true_2 _ Hv) in Hnotify.
    destruct (is_transition self event);
      injection Hnotify as Hr <- <-; cbn; fold tc;
      by rewrite Hr, lookup_insert_eq. }
  rewrite <- Hhashes in *. clear Hnotify Hhashes Hin Hv out.
  revert self' Hreq Hops.
  induction Hresets as [|op ops Hreset Hresets IH]; intros self' Hreq Hops.
  { split; [by left|]. by intros ?%Exists_nil. }
  apply Forall_cons in Hops as [Hop Hops]. cbn [run].
  destruct (exec_owed tc op self' Hop Hreset Hreq) as [Hstep Hrelease].
  pose proof (exec_handled_input_hashes op self') as Hhashes.
  pose proof (run_settled tc ops (exec sub_notify sub_reset op self').2)
    as Hsettled.
  specialize (IH (exec sub_notify sub_reset op self').2).
  destruct (exec sub_notify sub_reset op self') as [c self2].
  cbn [fst snd] in *. rewrite Hhashes in IH, Hsettled.
  specialize (Hsettled Hops).
  destruct (run sub_notify sub_reset ops self2) as [log final].
  cbn [fst snd releases_reaching_system] in *.
  destruct Hstep as [[Hreq2 Hn]|[Hreq2 Hn]].
  - destruct (IH Hreq2 Hops) as [IH1 IH2]. split.
    + destruct IH1 as [[? ?]|[? ?]]; [left|right]; split; try done; lia.
    + intros [Hhere|Hlater]%Exists_cons.
      * specialize (Hrelease Hhere). congruence.
      * specialize (IH2 Hlater). lia.
  - destruct Hsettled as [Hfinal Hzero]; [by rewrite Hreq2|].
    split; [right; split; [done|lia]|]. intros _. lia.
Qed.

(** ** What [__init__] refuses *)

Lemma init_pressed_keys_hash (combination : list Config) k :
  init_pressed_keys combination !! k
  = if bool_decide (k ∈ InputConfig.input_match_hash <$> combination)
    then Some false else None.
Proof.
  pose proof (init_pressed_keys_dom combination) as Hdom.
  case_bool_decide as Hk.
  - assert (k ∈ dom (init_pressed_keys combination)) as Hin
      by (rewrite Hdom; by apply elem_of_list_to_set).
    apply elem_of_dom in Hin as [b Hb].
    by rewrite (init_pressed_keys_lookup _ _ _ Hb) in Hb.
  - apply not_elem_of_dom. rewrite Hdom. by rewrite elem_of_list_to_set.
Qed.

(** X18. [__init__] raises exactly when the combination is empty or holds a
    config that defines an analog input, and then it is [AssertionError].
    Otherwise the handler starts inactive, owing no release, with every key
    of the combination, and no other, in the pressed map as not pressed. *)
Theorem init_refuses_analog_and_empty (combination : list Config)
    (mapping0 : Mapping.t Hash Origin) (sub : SubHandler) :
  ((∃ e, __init__ combination mapping0 sub = Raise e)
   ↔ combination = []
     ∨ Exists (λ cfg, InputConfig.defines_analog_input cfg = true)
         combination)
  ∧ (∀ e, __init__ combination mapping0 sub = Raise e → e = AssertionError)
  ∧ (∀ handler : Handler,
       __init__ combination mapping0 sub = Ok handler →
       _output_previously_active handler = false
       ∧ _requires_a_release handler = ∅
       ∧ _sub_handler handler = sub
       ∧ all_pressed (_pressed_keys handler) = false
       ∧ ∀ k, _pressed_keys handler !! k
              = if bool_decide (k ∈ _handled_input_hashes handler)
                then Some false else None).
Proof.
  split_and!.
  - unfold __init__.
    destruct (existsb _ combination) eqn:Hanalog.
    + split; [|by eexists]. intros _. right.
      apply existsb_exists in Hanalog as (cfg & Hin & Hcfg).
      apply Exists_exists. exists cfg. split; [|done].
      by apply list_elem_of_In.
    + case_bool_decide as Hsize.
      * split; [by intros [e [=]]|].
        intros [->|Hex].
        { unfold init_pressed_keys in Hsize. cbn in Hsize.
          rewrite map_size_empty in Hsize. lia. }
        apply Exists_exists in Hex as (cfg & Hin & Hcfg).
        assert (existsb InputConfig.defines_analog_input combination = true)
          as Hyes.
        { apply existsb_exists. exists cfg. split; [|done].
          by apply list_elem_of_In. }
        congruence.
      * split; [|by eexists]. intros _. left.
        destruct combination as [|cfg rest]; [done|]. exfalso. apply Hsize.
        pose proof (init_pressed_keys_hash (cfg :: rest)
                      (InputConfig.input_match_hash cfg)) as Hk.
        rewrite bool_decide_eq_true_2 in Hk by (cbn; left).
        destruct (decide (init_pressed_keys (cfg :: rest) = ∅)) as [He|Hne].
        -- by rewrite He, lookup_empty in Hk.
        -- apply map_size_non_empty_iff in Hne. lia.
  - intros e. unfold __init__. repeat case_match; by intros [= <-].
  - intros handler Hinit. apply init_inv in Hinit as [-> Hne].
    cbn [_output_previously_active _requires_a_release _sub_handler
         _pressed_keys _handled_input_hashes].
    split_and!; try done.
    + apply map_choose in Hne as (k & b & Hk).
      apply (all_pressed_false _ k).
      by rewrite (init_pressed_keys_lookup _ _ _ Hk) in Hk.
    + apply init_pressed_keys_hash.
Qed.

End combination_handler_facts.

(** * Properties of [SystemMapping.get_or_allocate] *)

Module SystemMappingFacts.
Import SystemMapping.

Lemma lower_ascii_idemp (a : Ascii.ascii) :
  lower_ascii (lower_ascii a) = lower_ascii a.
Proof. by destruct a as [[] [] [] [] [] [] [] []]. Qed.

Lemma lower_idemp (s : string) : lower (lower s) = lower s.
Proof.
  induction s as [|a s IH]; [done|]. cbn. by rewrite lower_ascii_idemp, IH.
Qed.

(** The argument is lower-cased before anything else happens. *)
Lemma get_or_allocate_lower (character : string) (self : t) :
  get_or_allocate character self = get_or_allocate (lower character) self.
Proof. unfold get_or_allocate. by rewrite lower_idemp. Qed.

(** A character of the layout gets the code [get] finds, nothing is
    allocated. *)
Lemma get_or_allocate_mapped (character : string) (self : t) (code : Z) :
  get character self = Some code →
  get_or_allocate character self = (Ok code, self).
Proof. unfold get, get_or_allocate. by intros ->. Qed.

Lemma find_free_spec (occupied : gset Z) (code : Z) :
  find_free occupied = Some code → 0 ≤ code < 256 ∧ code ∉ occupied.
Proof.
  unfold find_free. intros Hfind. apply find_some in Hfind as [Hin Hfree].
  apply bool_decide_eq_true in Hfree. split; [|done].
  apply list_elem_of_In, elem_of_seqZ in Hin. lia.
Qed.

Lemma find_free_none (occupied : gset Z) (code : Z) :
  find_free occupied = None → 0 ≤ code < 256 → code ∈ occupied.
Proof.
  unfold find_free. intros Hfind Hrange.
  pose proof (find_none _ _ Hfind code) as Hnone. cbv beta in Hnone.
  destruct (decide (code ∈ occupied)) as [|Hnot]; [done|].
  rewrite bool_decide_eq_true_2 in Hnone by done.
  exfalso. enough (true = false) by done. apply Hnone.
  apply list_elem_of_In, elem_of_seqZ. lia.
Qed.

(** A code handed out for an unknown character is in [0, 255] and not
    occupied by the layout. *)
Lemma get_or_allocate_fresh (character : string) (self self' : t) (code : Z) :
  _mapping self !! lower character = None →
  find_allocated (lower character) (_allocated_unknowns self) = None →
  get_or_allocate character self = (Ok code, self') →
  0 ≤ code < 256 ∧ code ∉ _occupied_keycodes self.
Proof.
  intros Hm Ha. unfold get_or_allocate. rewrite Hm, Ha.
  destruct (find_free _) as [free|] eqn:Hfree; [|done].
  intros [= <- _]. by apply find_free_spec.
Qed.

(** It raises only when every code of [0, 255] is occupied. *)
Lemma get_or_allocate_raises (character : string) (self self' : t)
    (e : PyException) (code : Z) :
  get_or_allocate character self = (Raise e, self') →
  0 ≤ code < 256 → code ∈ _occupied_keycodes self.
Proof.
  unfold get_or_allocate. repeat case_match; try done.
  intros _. by apply find_free_none.
Qed.

Lemma find_allocated_dict_set_eq (code : Z) (character : string)
    (d : list (Z * string)) :
  find_allocated character d = None →
  find_allocated character (dict_set code character d) = Some code.
Proof.
  unfold find_allocated. induction d as [|[k v] d IH]; cbn.
  - by rewrite bool_decide_eq_true_2.
  - destruct (bool_decide (v = character)) eqn:Hv; [done|]. intros Hd.
    destruct (bool_decide (k = code)) eqn:Hk; cbn.
    + rewrite bool_decide_eq_true_2 by done. cbn.
      by apply bool_decide_eq_true in Hk as ->.
    + rewrite Hv. by apply IH.
Qed.

Lemma find_allocated_dict_set_ne (code : Z) (character other : string)
    (d : list (Z * string)) :
  other ≠ character →
  find_allocated other d = None →
  find_allocated other (dict_set code character d) = None.
Proof.
  intros Hne. unfold find_allocated. induction d as [|[k v] d IH]; cbn.
  - by rewrite bool_decide_eq_false_2.
  - destruct (bool_decide (v = other)) eqn:Hv; [done|]. intros Hd.
    destruct (bool_decide (k = code)); cbn.
    + by rewrite bool_decide_eq_false_2.
    + rewrite Hv. by apply IH.
Qed.

(** Asking twice for the same character gives the same code, and the second
    call changes nothing. *)
Lemma get_or_allocate_idempotent (character : string) (self self' : t)
    (code : Z) :
  get_or_allocate character self = (Ok code, self') →
  get_or_allocate character self' = (Ok code, self').
Proof.
  unfold get_or_allocate.
  destruct (_mapping self !! lower character) as [mapped|] eqn:Hm.
  { intros [= <- <-]. by rewrite Hm. }
  destruct (find_allocated _ (_allocated_unknowns self)) as [known|] eqn:Ha.
  { intros [= <- <-]. by rewrite Hm, Ha. }
  destruct (find_free _) as [free|]; [|done].
  intros [= <- <-].
  cbn [_mapping _allocated_unknowns _occupied_keycodes set_allocated_unknowns].
  by rewrite Hm, find_allocated_dict_set_eq.
Qed.

(** The allocation loop looks at [_occupied_keycodes] only: a second
    unknown character is handed the code of the first one. *)
Lemma get_or_allocate_unknowns_collide (first second : string) (self : t)
    (code : Z) :
  lower first ≠ lower second →
  _mapping self !! lower first = None →
  _mapping self !! lower second = None →
  find_allocated (lower first) (_allocated_unknowns self) = None →
  find_allocated (lower second) (_allocated_unknowns self) = None →
  find_free (_occupied_keycodes self) = Some code →
  ∃ self1 self2,
    get_or_allocate first self = (Ok code, self1)
    ∧ get_or_allocate second self1 = (Ok code, self2).
Proof.
  intros Hne Hm1 Hm2 Ha1 Ha2 Hfree. unfold get_or_allocate.
  rewrite Hm1, Ha1, Hfree. do 2 eexists. split; [done|].
  cbn [_mapping _allocated_unknowns _occupied_keycodes set_allocated_unknowns].
  rewrite Hm2, find_allocated_dict_set_ne, Hfree by done. done.
Qed.

(** C9. On a layout with [a] and [b], the unknown characters [odiaeresis]
    and [F24] are both handed code 0, and the second allocation overwrites
    the record of the first: distinct unknown characters do not get distinct
    codes. *)
Theorem get_or_allocate_not_injective :
  let '(first, self1) := get_or_allocate "odiaeresis" two_letter_layout in
  let '(second, self2) := get_or_allocate "F24" self1 in
  first = Ok 0 ∧ second = Ok 0
  ∧ _allocated_unknowns self1 = [(0, "odiaeresis")]
  ∧ _allocated_unknowns self2 = [(0, "f24")].
Proof. by vm_compute. Qed.

(** ** Further properties of [SystemMapping] *)




Lemma get_or_allocate_static (character : string) (self : t) :
  _mapping (get_or_allocate character self).2 = _mapping self
  ∧ _occupied_keycodes (get_or_allocate character self).2
    = _occupied_keycodes self.
Proof. unfold get_or_allocate. by repeat case_match. Qed.

Lemma get_or_allocate_single (character : string) (self : t) :
  (_allocated_unknowns self = []
   ∨ ∃ code name, _allocated_unknowns self = [(code, name)]
                  ∧ find_free (_occupied_keycodes self) = Some code) →
  _allocated_unknowns (get_or_allocate character self).2 = []
  ∨ ∃ code name,
      _allocated_unknowns (get_or_allocate character self).2 = [(code, name)]
      ∧ find_free (_occupied_keycodes self) = Some code.
Proof.
  intros Hinv. unfold get_or_allocate.
  destruct (_mapping self !! lower character); [done|].
  destruct (find_allocated _ _); [done|].
  destruct (find_free _) as [free|] eqn:Hfree; [|done].
  right. cbn. destruct Hinv as [->|(code & name & -> & Hcode)].
  - by exists free, (lower character).
  - injection Hcode as ->. exists code, (lower character). cbn.
    by rewrite bool_decide_eq_true_2.
Qed.

(** X9. Starting without allocations, whatever characters are asked for, in
    whatever order: the layout and the occupied codes stay as they were, and
    the record of unknown characters never holds more than one entry, under
    the least unoccupied code. *)
Theorem allocate_all_single (characters : list string) (self : t) :
  _allocated_unknowns self = [] →
  _mapping (allocate_all characters self) = _mapping self
  ∧ _occupied_keycodes (allocate_all characters self) = _occupied_keycodes self
  ∧ (_allocated_unknowns (allocate_all characters self) = []
     ∨ ∃ code name,
         _allocated_unknowns (allocate_all characters self) = [(code, name)]
         ∧ find_free (_occupied_keycodes self) = Some code).
Proof.
  intros Hempty.
  assert (_allocated_unknowns self = []
          ∨ ∃ code name, _allocated_unknowns self = [(code, name)]
                         ∧ find_free (_occupied_keycodes self) = Some code)
    as Hinv by (by left).
  clear Hempty. revert self Hinv.
  induction characters as [|character rest IH]; intros self Hinv; [done|].
  cbn [allocate_all].
  destruct (get_or_allocate_static character self) as [Hm Ho].
  pose proof (get_or_allocate_single character self Hinv) as Hinv'.
  rewrite <- Ho in Hinv'. specialize (IH _ Hinv').
  by rewrite Hm, Ho in IH.
Qed.


(** ** [populate] *)


Lemma first_pass_occupied (mappings : list (Z * list string))
    (d : gmap string Z) (occupied : gset Z) (code : Z) :
  (first_pass mappings d occupied).1.1 = NoError →
  code ∈ (first_pass mappings d occupied).2
  ↔ code ∈ occupied
    ∨ ∃ keycode first names,
        (keycode, first :: names) ∈ mappings ∧ first ≠ "nosymbol"
        ∧ code = keycode - XKB_KEYCODE_OFFSET.
Proof.
  revert d occupied.
  induction mappings as [|[keycode names] rest IH]; intros d occupied.
  - cbn. intros _. split; [by left|]. intros [?|(?&?&?&Hin&_)]; [done|].
    by apply elem_of_nil in Hin.
  - cbn [first_pass]. destruct names as [|first names]; [done|].
    destruct (decide (first = "nosymbol")) as [->|Hsym].
    + rewrite bool_decide_eq_true_2 by done. intros Hok.
      rewrite IH by done. split.
      * intros [?|(k & f & ns & Hin & ? & ?)]; [by left|right].
        exists k, f, ns. split_and!; try done. by right.
      * intros [?|(k & f & ns & Hin & Hf & ?)]; [by left|right].
        exists k, f, ns. split_and!; try done.
        apply elem_of_cons in Hin as [[= -> -> ->]|Hin]; done.
    + rewrite (bool_decide_eq_false_2 _ Hsym). cbv zeta. intros Hok.
      rewrite IH by done. rewrite elem_of_union, elem_of_singleton. split.
      * intros [[->|?]|(k & f & ns & Hin & ? & ?)].
        -- right. exists keycode, first, names. split_and!; try done.
           by left.
        -- by left.
        -- right. exists k, f, ns. split_and!; try done. by right.
      * intros [?|(k & f & ns & Hin & Hf & ->)]; [left; by right|].
        apply elem_of_cons in Hin as [[= -> -> ->]|Hin]; [left; by left|].
        right. by exists k, f, ns.
Qed.

Lemma first_pass_grows (mappings : list (Z * list string))
    (d : gmap string Z) (occupied : gset Z) :
  occupied ⊆ (first_pass mappings d occupied).2.
Proof.
  revert d occupied.
  induction mappings as [|[keycode names] rest IH]; intros d occupied; [done|].
  cbn [first_pass]. destruct names as [|first names]; [done|].
  destruct (bool_decide _); [apply IH|]. cbv zeta.
  etrans; [|apply IH]. set_solver.
Qed.

Lemma first_pass_raises (mappings : list (Z * list string))
    (d : gmap string Z) (occupied : gset Z) :
  (first_pass mappings d occupied).1.1 = IndexError
  ↔ ∃ keycode, (keycode, []) ∈ mappings.
Proof.
  revert d occupied.
  induction mappings as [|[keycode names] rest IH]; intros d occupied.
  - cbn. split; [done|]. intros [? Hin]. by apply elem_of_nil in Hin.
  - cbn [first_pass]. destruct names as [|first names].
    + cbn. split; [|done]. intros _. exists keycode. by left.
    + assert ((∃ k, (k, []) ∈ (keycode, first :: names) :: rest)
              ↔ ∃ k, (k, []) ∈ rest) as ->.
      { split; intros [k Hin]; exists k; [|by right].
        by apply elem_of_cons in Hin as [[= ]|Hin]. }
      destruct (bool_decide _); apply IH.
Qed.



Lemma set_ecodes_spec (ecodes : list (string * Z)) (self : t) :
  (∀ name,
     _mapping (set_ecodes ecodes self) !! name
     = match ecode_of name ecodes with
       | Some code => Some code
       | None => _mapping self !! name
       end)
  ∧ _allocated_unknowns (set_ecodes ecodes self) = _allocated_unknowns self
  ∧ _occupied_keycodes (set_ecodes ecodes self) = _occupied_keycodes self.
Proof.
  revert self. induction ecodes as [|[ecode_name ecode] rest IH]; intros self.
  - done.
  - cbn [set_ecodes ecode_of].
    destruct (IH (if String.prefix "KEY" ecode_name
                     || String.prefix "BTN" ecode_name
                  then _set ecode_name ecode self else self))
      as (Hlook & -> & ->).
    split; [|by destruct (_ || _)].
    intros name. rewrite Hlook. destruct (ecode_of name rest); [done|].
    destruct (_ || _); [|done]. cbn.
    destruct (decide (lower ecode_name = name)) as [->|Hne].
    + rewrite bool_decide_eq_true_2 by done. apply lookup_insert_eq.
    + rewrite (bool_decide_eq_false_2 _ Hne). by apply lookup_insert_ne.
Qed.

Section populate_facts.
Variable DISABLE_NAME : string.
Variable DISABLE_CODE : Z.

Abbreviation populate' := (populate DISABLE_NAME DISABLE_CODE).



(** X12. [populate] keeps the allocated unknowns and only adds to the
    occupied codes. It raises [IndexError] exactly when a row of the layout
    has no name, and then leaves the table of names empty. When it does not
    raise, the occupied codes are the old ones and, for each row whose first
    name is not [nosymbol], the keycode less 8. *)
Theorem populate_occupies (xmodmap : option (list (Z * list string)))
    (ecodes : list (string * Z)) (self : t) :
  let raised := (populate' xmodmap ecodes self).1 in
  let self' := (populate' xmodmap ecodes self).2 in
  _allocated_unknowns self' = _allocated_unknowns self
  ∧ _occupied_keycodes self ⊆ _occupied_keycodes self'
  ∧ (raised = IndexError
     ↔ ∃ mappings keycode, xmodmap = Some mappings ∧ (keycode, []) ∈ mappings)
  ∧ (raised = IndexError → _mapping self' = ∅)
  ∧ (raised = NoError →
     ∀ code,
       code ∈ _occupied_keycodes self'
       ↔ code ∈ _occupied_keycodes self
         ∨ ∃ mappings keycode first names,
             xmodmap = Some mappings
             ∧ (keycode, first :: names) ∈ mappings ∧ first ≠ "nosymbol"
             ∧ code = keycode - XKB_KEYCODE_OFFSET).
Proof.
  cbv zeta. unfold populate. cbv zeta.
  destruct xmodmap as [mappings|].
  - pose proof (first_pass_grows mappings ∅ (_occupied_keycodes self))
      as Hgrows.
    pose proof (first_pass_raises mappings ∅ (_occupied_keycodes self))
      as Hraises.
    pose proof (first_pass_occupied mappings ∅ (_occupied_keycodes self))
      as Hoccupied.
    cbn [clear set_mapping _occupied_keycodes].
    destruct (first_pass mappings ∅ (_occupied_keycodes self))
      as [[raised d] occupied].
    cbn [fst snd] in *. destruct raised; cbn [fst snd].
    + destruct (set_ecodes_spec ecodes
                  (update (second_pass mappings d)
                     (set_occupied_keycodes (λ _, occupied)
                        (clear self)))) as (_ & Ha & Ho).
      cbn [_set set_mapping _allocated_unknowns _occupied_keycodes].
      rewrite Ha, Ho. cbn. split_and!; try done.
      * split; [done|]. intros (ms & k & [= <-] & Hin).
        by apply Hraises; exists k.
      * intros _ code. rewrite Hoccupied by done. split.
        -- intros [?|(k & f & ns & ? & ? & ?)]; [by left|right].
           by exists mappings, k, f, ns.
        -- intros [?|(ms & k & f & ns & [= <-] & ? & ? & ?)]; [by left|right].
           by exists k, f, ns.
    + cbn. split_and!; try done.
      split; [|done]. intros _. destruct Hraises as [Hraises _].
      destruct (Hraises eq_refl) as [k Hk]. by exists mappings, k.
  - destruct (set_ecodes_spec ecodes (update ∅ (clear self))) as (_ & Ha & Ho).
    cbn [fst snd _set set_mapping _allocated_unknowns _occupied_keycodes].
    rewrite Ha, Ho. cbn. split_and!; try done.
    + split; [done|]. by intros (? & ? & [= ] & _).
    + intros _ code. split; [by left|].
      by intros [?|(? & ? & ? & ? & [= ] & _)].
Qed.


End populate_facts.

(** ** The properties at work *)


(** X9 at work: three requests, two of them for different characters. *)
Lemma allocate_all_single_witness :
  _mapping (allocate_all ["odiaeresis"; "F24"; "odiaeresis"] two_letter_layout)
  = _mapping two_letter_layout
  ∧ _occupied_keycodes
      (allocate_all ["odiaeresis"; "F24"; "odiaeresis"] two_letter_layout)
    = _occupied_keycodes two_letter_layout
  ∧ (_allocated_unknowns
       (allocate_all ["odiaeresis"; "F24"; "odiaeresis"] two_letter_layout)
     = []
     ∨ ∃ code name,
         _allocated_unknowns
           (allocate_all ["odiaeresis"; "F24"; "odiaeresis"]
              two_letter_layout)
         = [(code, name)]
         ∧ find_free (_occupied_keycodes two_letter_layout) = Some code).
Proof.
  apply (allocate_all_single ["odiaeresis"; "F24"; "odiaeresis"]
           two_letter_layout).
  reflexivity.
Defined.



(** X12 at work: the row of [alt_l] occupies the code 56. *)
Lemma populate_occupies_witness :
  56 ∈ _occupied_keycodes
         (populate "disable" (-1) (Some three_rows) some_ecodes
            two_letter_layout).2.
Proof.
  apply (proj2 (proj2 (proj2 (proj2
           (populate_occupies "disable" (-1) (Some three_rows) some_ecodes
              two_letter_layout))))
           ltac:(vm_compute; reflexivity)).
  right. exists three_rows, 64, "alt_l", ["meta_l"]. split_and!.
  - reflexivity.
  - apply (bool_decide_unpack _); vm_compute; exact I.
  - discriminate.
  - reflexivity.
Defined.


End SystemMappingFacts.

(** * Properties of the device discovery *)

Module GetDevicesFacts.
Import GetDevices.

(** ** Dicts in insertion order *)

Section ordered_dict_facts.
Context {V : Type}.
Implicit Types (d : list (string * V)) (k : string) (v : V).

Lemma dict_get_set k k' v d :
  dict_get k' (dict_set k v d)
  = if bool_decide (k = k') then Some v else dict_get k' d.
Proof.
  induction d as [|[k0 v0] d IH]; cbn.
  - done.
  - destruct (decide (k0 = k)) as [->|Hne].
    + rewrite (bool_decide_eq_true_2 (k = k)) by done. cbn.
      by destruct (bool_decide (k = k')).
    + rewrite (bool_decide_eq_false_2 _ Hne). cbn. rewrite IH.
      destruct (decide (k0 = k')) as [->|Hne'].
      * rewrite (bool_decide_eq_true_2 (k' = k')) by done.
        by rewrite bool_decide_eq_false_2 by done.
      * by rewrite (bool_decide_eq_false_2 _ Hne').
Qed.

Lemma dict_set_keys k v d :
  (dict_set k v d).*1 = if bool_decide (k ∈ d.*1) then d.*1 else d.*1 ++ [k].
Proof.
  induction d as [|[k0 v0] d IH]; cbn.
  - by rewrite bool_decide_eq_false_2 by (by intros ?%elem_of_nil).
  - destruct (decide (k0 = k)) as [->|Hne].
    + rewrite (bool_decide_eq_true_2 (k = k)) by done.
      by rewrite bool_decide_eq_true_2 by (by left).
    + rewrite (bool_decide_eq_false_2 _ Hne). cbn. rewrite IH.
      destruct (decide (k ∈ d.*1)) as [Hin|Hnot].
      * rewrite (bool_decide_eq_true_2 _ Hin).
        by rewrite bool_decide_eq_true_2 by (by right).
      * rewrite (bool_decide_eq_false_2 _ Hnot).
        rewrite bool_decide_eq_false_2; [done|].
        by intros [?|?]%elem_of_cons.
Qed.

Lemma dict_set_NoDup k v d : NoDup d.*1 → NoDup (dict_set k v d).*1.
Proof.
  intros Hnd. rewrite dict_set_keys. case_bool_decide; [done|].
  apply NoDup_app. split_and!; [done| |apply NoDup_singleton].
  intros k' Hin ->%list_elem_of_singleton. done.
Qed.

Lemma dict_set_fresh k v d : k ∉ d.*1 → dict_set k v d = d ++ [(k, v)].
Proof.
  induction d as [|[k0 v0] d IH]; cbn; [done|].
  intros Hnot. rewrite bool_decide_eq_false_2.
  - rewrite IH; [done|]. intros Hin. apply Hnot. by right.
  - intros ->. apply Hnot. by left.
Qed.

Lemma dict_set_elem k v k' v' d :
  (k', v') ∈ dict_set k v d → (k' = k ∧ v' = v) ∨ (k', v') ∈ d.
Proof.
  induction d as [|[k0 v0] d IH]; cbn.
  - intros [= -> ->]%list_elem_of_singleton. by left.
  - case_bool_decide as Hk.
    + intros [[= -> ->]|Hin]%elem_of_cons; [by left|]. right. by right.
    + intros [[= -> ->]|Hin]%elem_of_cons; [right; by left|].
      destruct (IH Hin) as [?|?]; [by left|]. right. by right.
Qed.


Lemma elem_dict_get k v d : NoDup d.*1 → (k, v) ∈ d → dict_get k d = Some v.
Proof.
  induction d as [|[k0 v0] d IH]; cbn.
  - by intros _ ?%elem_of_nil.
  - intros [Hfresh Hnd]%NoDup_cons [[= -> ->]|Hin]%elem_of_cons.
    + by rewrite bool_decide_eq_true_2.
    + rewrite bool_decide_eq_false_2; [by apply IH|].
      intros ->. apply Hfresh. by apply (list_elem_of_fmap_2 fst _ (k, v)).
Qed.

End ordered_dict_facts.

(** ** The shortest name *)


Lemma sorted_by_len_nil (l : list string) : sorted_by_len l = [] → l = [].
Proof.
  destruct l as [|x l]; [done|]. unfold sorted_by_len. cbn [foldr].
  destruct (foldr insert_by_len [] l) as [|y s]; cbn; [done|].
  by destruct (_ <=? _)%nat.
Qed.


Section run_facts.
Variable EV_KEY : Z.

Abbreviation entries usb system :=
  ((λ device, (name device, path device)) <$> on_port EV_KEY usb system).

(** ** The first loop: one group per usb port *)

Lemma group_devices_get (usb : string) (system : list InputDevice)
    (grouped : list (string * list (string * string))) :
  dict_get usb (group_devices EV_KEY system grouped)
  = match entries usb system with
    | [] => dict_get usb grouped
    | new => Some (default [] (dict_get usb grouped) ++ new)
    end.
Proof.
  revert grouped. induction system as [|device rest IH]; intros grouped;
    [done|].
  cbn [group_devices on_port List.filter]. unfold is_keyboard at 1.
  destruct (bool_decide (name device = "Power Button")); cbn [negb andb];
    [apply IH|].
  destruct (bool_decide (EV_KEY ∈ capabilities device)); cbn [negb andb];
    [|apply IH].
  cbv zeta. rewrite IH. clear IH.
  set (port := before_slash (phys device)).
  set (grouped1 := match dict_get port grouped with
                   | None => dict_set port [] grouped
                   | Some _ => grouped
                   end).
  assert (default [] (dict_get port grouped1)
          = default [] (dict_get port grouped)) as Hsame.
  { unfold grouped1. destruct (dict_get port grouped) eqn:Hget.
    - by rewrite Hget.
    - by rewrite dict_get_set, bool_decide_eq_true_2. }
  assert (∀ k, k ≠ port → dict_get k grouped1 = dict_get k grouped) as Hother.
  { intros k Hk. unfold grouped1. destruct (dict_get port grouped); [done|].
    rewrite dict_get_set. by rewrite bool_decide_eq_false_2. }
  rewrite dict_get_set, Hsame.
  destruct (decide (port = usb)) as [Heq|Hne].
  - rewrite (bool_decide_eq_true_2 _ Heq). rewrite <- Heq.
    change (List.filter _ rest) with (on_port EV_KEY port rest).
    destruct (on_port EV_KEY port rest) as [|e es]; cbn; [done|].
    by rewrite <- app_assoc.
  - rewrite (bool_decide_eq_false_2 _ Hne).
    change (List.filter _ rest) with (on_port EV_KEY usb rest).
    by rewrite Hother.
Qed.

Lemma group_devices_NoDup (system : list InputDevice)
    (grouped : list (string * list (string * string))) :
  NoDup grouped.*1 → NoDup (group_devices EV_KEY system grouped).*1.
Proof.
  revert grouped. induction system as [|device rest IH]; intros grouped Hnd;
    [done|].
  cbn [group_devices]. repeat case_match; try by apply IH.
  all: apply IH; repeat apply dict_set_NoDup; done.
Qed.

(** Every group is made of the keyboards of one usb port, in their order,
    and is not empty. *)
Lemma group_devices_elem (system : list InputDevice) (usb : string)
    (group : list (string * string)) :
  (usb, group) ∈ group_devices EV_KEY system [] →
  group = entries usb system ∧ on_port EV_KEY usb system ≠ [].
Proof.
  intros Hin. apply elem_dict_get in Hin.
  2: { apply group_devices_NoDup. constructor. }
  rewrite group_devices_get in Hin.
  destruct (on_port EV_KEY usb system) as [|device port]; [done|].
  by injection Hin as <-.
Qed.

(** ** The second loop *)

Lemma write_groups_some (groups : list (list (string * string)))
    (result : list (string * Group)) :
  Forall (λ group, group ≠ []) groups →
  is_Some (write_groups groups result).
Proof.
  intros Hne. revert result.
  induction Hne as [|group rest Hgroup Hrest IH]; intros result; [by eexists|].
  cbn [write_groups]. destruct (sorted_by_len (fst <$> group)) eqn:Hs.
  - apply sorted_by_len_nil, fmap_nil_inv in Hs. done.
  - apply IH.
Qed.

Lemma write_groups_NoDup (groups : list (list (string * string)))
    (acc result : list (string * Group)) :
  write_groups groups acc = Some result → NoDup acc.*1 → NoDup result.*1.
Proof.
  revert acc. induction groups as [|group rest IH]; intros acc; cbn.
  - by intros [= ->].
  - destruct (sorted_by_len _); [done|]. intros Hw Hnd.
    apply (IH _ Hw). by apply dict_set_NoDup.
Qed.

Lemma write_groups_elem (groups : list (list (string * string)))
    (acc result : list (string * Group)) (g : string) (e : Group) :
  write_groups groups acc = Some result →
  (g, e) ∈ result →
  (g, e) ∈ acc
  ∨ ∃ group, group ∈ groups ∧ e = entry_of group
             ∧ head (sorted_by_len (fst <$> group)) = Some g.
Proof.
  revert acc. induction groups as [|group rest IH]; intros acc; cbn.
  - intros [= ->]. by left.
  - destruct (sorted_by_len (fst <$> group)) as [|shortest s] eqn:Hs; [done|].
    intros Hw Hin. destruct (IH _ Hw Hin) as [Hacc|(gr & Hgr & He & Hhead)].
    + apply dict_set_elem in Hacc as [[-> ->]|Hacc]; [|by left].
      right. exists group. split_and!; [by left|done|by rewrite Hs].
    + right. exists gr. split_and!; [by right|done..].
Qed.


Lemma entry_of_entries (port : list InputDevice) :
  entry_of ((λ device, (name device, path device)) <$> port) = group_of port.
Proof.
  unfold entry_of, group_of. f_equal; rewrite <- list_fmap_compose;
    by apply list_fmap_ext.
Qed.


Lemma run_groups (system : list InputDevice) :
  Forall (λ group, group ≠ []) (snd <$> group_devices EV_KEY system []).
Proof.
  apply Forall_forall. intros group [[usb gr] [-> Hin]]%list_elem_of_fmap.
  apply group_devices_elem in Hin as [-> Hne]. cbn.
  by intros ?%fmap_nil_inv.
Qed.

Lemma run_NoDup (system : list InputDevice) (found : list (string * Group)) :
  run EV_KEY system = Some found → NoDup found.*1.
Proof.
  intros Hrun. apply (write_groups_NoDup _ _ _ Hrun). constructor.
Qed.

(** ** What [run] and [get_devices] deliver *)

(** X14. [run] always delivers a result. Each of its groups holds exactly
    the keyboards of one usb port, in the order of discovery, paths and
    names side by side: a device named [Power Button] or without [EV_KEY]
    among its capabilities is in no group, and no group mixes ports. No
    group name occurs twice. *)
Theorem run_groups_by_port (system : list InputDevice) :
  ∃ result,
    run EV_KEY system = Some result
    ∧ NoDup result.*1
    ∧ ∀ group_name group,
        (group_name, group) ∈ result →
        ∃ usb, on_port EV_KEY usb system ≠ []
               ∧ group = group_of (on_port EV_KEY usb system).
Proof.
  destruct (write_groups_some (snd <$> group_devices EV_KEY system []) []
              (run_groups system)) as [result Hrun].
  exists result. split_and!; [done| |].
  - apply (write_groups_NoDup _ _ _ Hrun). constructor.
  - intros g e Hin.
    destruct (write_groups_elem _ _ _ _ _ Hrun Hin)
      as [?%elem_of_nil|(group & Hgroup & -> & _)]; [done|].
    apply list_elem_of_fmap in Hgroup as [[usb gr] [-> Hgr]].
    apply group_devices_elem in Hgr as [-> Hne].
    exists usb. split; [done|]. apply entry_of_entries.
Qed.



Lemma filter_devices_spec (include_keymapper : bool)
    (found acc : list (string * Group)) :
  NoDup (acc.*1 ++ found.*1) →
  filter_devices include_keymapper found acc
  = acc ++ List.filter
             (λ entry, include_keymapper
                       || negb (String.prefix "key-mapper" entry.1))
             found.
Proof.
  revert acc. induction found as [|[device group] rest IH]; intros acc Hnd.
  - cbn. by rewrite app_nil_r.
  - cbn [filter_devices List.filter fst].
    assert (NoDup (acc.*1 ++ rest.*1)) as Hnd1.
    { apply NoDup_app in Hnd as (Ha & Hdisj & [_ Hr]%NoDup_cons).
      apply NoDup_app. split_and!; [done| |done].
      intros k Hk Hin. apply (Hdisj k Hk). by right. }
    assert (device ∉ acc.*1) as Hfresh.
    { apply NoDup_app in Hnd as (_ & Hdisj & _).
      intros Hin. apply (Hdisj _ Hin). by left. }
    destruct include_keymapper; cbn [negb andb orb].
    + rewrite IH.
      * rewrite dict_set_fresh by done. by rewrite <- app_assoc.
      * rewrite dict_set_fresh, fmap_app, <- app_assoc by done. cbn.
        by apply NoDup_app in Hnd as ?.
    + destruct (String.prefix "key-mapper" device); cbn [negb].
      * by apply IH.
      * rewrite IH.
        -- rewrite dict_set_fresh by done. by rewrite <- app_assoc.
        -- rewrite dict_set_fresh, fmap_app, <- app_assoc by done. cbn.
           by apply NoDup_app in Hnd as ?.
Qed.

(** X17. [get_devices] answers from its cache when there is one, whatever
    devices are present by then, and fills the cache from [run] otherwise.
    Its result is the cached dict in the same order, without the groups
    whose name starts with [key-mapper] unless [include_keymapper] is set;
    with [include_keymapper] it is the whole cached dict. *)
Theorem get_devices_filters_cache (include_keymapper : bool)
    (system : list InputDevice) (_devices : option (list (string * Group)))
    (result : list (string * Group))
    (cache : option (list (string * Group))) :
  (∀ found, _devices = Some found → NoDup found.*1) →
  get_devices EV_KEY include_keymapper system _devices
  = Some (result, cache) →
  ∃ found,
    cache = Some found
    ∧ (_devices = Some found
       ∨ (_devices = None ∧ run EV_KEY system = Some found))
    ∧ result
      = List.filter
          (λ entry, include_keymapper
                    || negb (String.prefix "key-mapper" entry.1))
          found
    ∧ (include_keymapper = true → result = found).
Proof.
  intros Hwf. unfold get_devices.
  assert (∀ found, NoDup found.*1 →
            filter_devices include_keymapper found []
            = List.filter
                (λ entry, include_keymapper
                          || negb (String.prefix "key-mapper" entry.1))
                found
            ∧ (include_keymapper = true →
               filter_devices include_keymapper found [] = found))
    as Hfilter.
  { intros found Hnd. rewrite filter_devices_spec by done. cbn [app].
    split; [done|]. intros ->. cbn.
    clear. induction found as [|entry rest IH]; [done|]. cbn. by rewrite IH. }
  destruct _devices as [found|].
  - intros [= <- <-]. exists found.
    destruct (Hfilter found (Hwf found eq_refl)) as [Hf Hall].
    split_and!; try done. by left.
  - destruct (run EV_KEY system) as [found|] eqn:Hrun; [|done].
    intros [= <- <-]. exists found.
    destruct (Hfilter found (run_NoDup _ _ Hrun)) as [Hf Hall].
    split_and!; try done. by right.
Qed.

Lemma run_some (system : list InputDevice) :
  ∃ found, run EV_KEY system = Some found.
Proof. apply write_groups_some, run_groups. Qed.

(** X19. [refresh_devices] always delivers, whatever the cache held: the
    cache it leaves is what [run] finds now, and its answer holds exactly
    the groups of that whose name does not start with [key-mapper]. *)
Theorem refresh_devices_rediscovers (system : list InputDevice)
    (_devices : option (list (string * Group))) :
  ∃ result found,
    refresh_devices EV_KEY system _devices = Some (result, Some found)
    ∧ run EV_KEY system = Some found
    ∧ ∀ group_name group,
        (group_name, group) ∈ result
        ↔ (group_name, group) ∈ found
          ∧ String.prefix "key-mapper" group_name = false.
Proof.
  destruct (run_some system) as [found Hrun].
  exists (filter_devices false found []), found.
  unfold refresh_devices, get_devices. rewrite Hrun. split_and!; try done.
  intros group_name group.
  rewrite filter_devices_spec by (apply (run_NoDup _ _ Hrun)).
  cbn [app orb]. rewrite list_elem_of_In, filter_In, <- list_elem_of_In.
  cbn [fst]. by rewrite negb_true_iff.
Qed.

End run_facts.

(** ** The properties at work

    [EV_KEY] is 1. On the sample system the two devices of the keyboard make
    one group, and the virtual device of key-mapper one of its own. *)



Lemma get_devices_filters_cache_witness :
  ∃ found,
    run 1 some_system = Some found
    ∧ [("Logitech USB Keyboard",
        mkGroup ["/dev/input/event5"; "/dev/input/event4"]
          ["Logitech USB Keyboard Consumer Control"; "Logitech USB Keyboard"])]
      = List.filter
          (λ entry, false || negb (String.prefix "key-mapper" entry.1)) found.
Proof.
  destruct (get_devices_filters_cache 1 false some_system None
              [("Logitech USB Keyboard",
                mkGroup ["/dev/input/event5"; "/dev/input/event4"]
                  ["Logitech USB Keyboard Consumer Control";
                   "Logitech USB Keyboard"])]
              (Some [("Logitech USB Keyboard",
                      mkGroup ["/dev/input/event5"; "/dev/input/event4"]
                        ["Logitech USB Keyboard Consumer Control";
                         "Logitech USB Keyboard"]);
                     ("key-mapper Logitech USB Keyboard",
                      mkGroup ["/dev/input/event9"]
                        ["key-mapper Logitech USB Keyboard"])]))
    as (found & _ & [Hcached|[_ Hrun]] & Hresult & _).
  - by intros found [=].
  - vm_compute; reflexivity.
  - discriminate.
  - exists found. by split.
Defined.

End GetDevicesFacts.

(** * The scenarios, evaluated *)

Module ScenarioFacts.
Import Scenario.

Lemma handler_A_init :
  __init__ [cfg_A] (Mapping.mk [cfg_A] true) 0%nat = Ok handler_A.
Proof. by vm_compute. Qed.

Lemma handler_AB_init :
  __init__ [cfg_A; cfg_B] (Mapping.mk [cfg_A; cfg_B] true) 0%nat
  = Ok handler_AB.
Proof. by vm_compute. Qed.

Lemma active_A_reached :
  (run (answering true) sub_reset [OpNotify A_down tt false] handler_A).2
  = active_A.
Proof. by vm_compute. Qed.

Lemma held_A_reached :
  (run (answering true) sub_reset [OpNotify A_down tt false] handler_AB).2
  = held_A.
Proof. by vm_compute. Qed.

(** C10 at work: [B] down on the handler of the single key [A]. *)
Lemma notify_non_member_inert_witness :
  (InputEvent.input_match_hash B_down ∉ _handled_input_hashes handler_A)
  ∧ notify (answering true) B_down tt false handler_A
    = (Ok false, handler_A, []).
Proof.
  assert (InputEvent.input_match_hash B_down ∉ _handled_input_hashes handler_A)
    as Hnot by (apply (bool_decide_unpack _); vm_compute; exact I).
  split; [exact Hnot|].
  exact (notify_non_member_inert (answering true)
           handler_A B_down tt false Hnot).
Defined.

(** C4 at work: [A] down, suppressed, on the fresh single-key handler. *)
Lemma notify_suppressed_fresh_activation_witness :
  (notify (answering true) A_down tt true handler_A).1.1 = Ok false
  ∧ (notify (answering true) A_down tt true handler_A).2 = [].
Proof.
  rewrite (notify_suppressed_fresh_activation (answering true)
             handler_A A_down tt).
  - split; reflexivity.
  - apply (bool_decide_unpack _); vm_compute; exact I.
  - reflexivity.
  - vm_compute; reflexivity.
  - reflexivity.
Defined.

(** C3 at work: [A] up on the active single-key handler, with a caller that
    asks to suppress. *)
Lemma notify_fresh_deactivation_witness :
  notify (answering true) A_up tt true active_A
  = (Ok true,
     mkHandler (mapping active_A)
       (<[130 := false]> (_pressed_keys active_A)) false 2%nat
       (_handled_input_hashes active_A)
       (delete (1, 30) (_requires_a_release active_A)),
     [SubNotify A_up tt false]).
Proof.
  apply (notify_fresh_deactivation (answering true) active_A A_up tt true).
  - apply (bool_decide_unpack _); vm_compute; exact I.
  - reflexivity.
  - vm_compute; reflexivity.
Defined.

(** C5 at work: [A] down on the fresh two-key handler changes nothing about
    the activation and is let through. *)
Lemma notify_no_change_witness :
  (notify (answering true) A_down tt false handler_AB).1.1 = Ok false.
Proof.
  rewrite (proj1 (notify_no_change (answering true) handler_AB A_down tt false
                    ltac:(apply (bool_decide_unpack _); vm_compute; exact I)
                    ltac:(vm_compute; reflexivity))
             ltac:(reflexivity)).
  reflexivity.
Defined.

(** C6 at work: [B] down completes the combination while [A] is held. *)
Lemma notify_release_sweep_witness :
  (notify (answering true) B_down tt false held_A).2
  = [UInputWrite "keyboard" 1 30 0; UInputSyn "keyboard";
     SubNotify B_down tt false].
Proof.
  rewrite (proj1 (notify_release_sweep (answering true) held_A B_down tt
                    ltac:(apply (bool_decide_unpack _); vm_compute; exact I)
                    ltac:(reflexivity) ltac:(vm_compute; reflexivity))).
  vm_compute; reflexivity.
Defined.

(** C2 at work, on the keys 30 and 48 of one keyboard. *)
Lemma two_key_scenario_witness :
  ∃ handler,
    __init__ [cfg_A; cfg_B] (Mapping.mk [cfg_A; cfg_B] true) 0%nat = Ok handler
    ∧ (run (answering true) sub_reset
         [OpNotify A_down tt false; OpNotify B_down tt false;
          OpNotify B_up tt false; OpNotify A_up tt false] handler).1
      = [NotifyCall A_down false (Ok false) [];
         NotifyCall B_down false (Ok true)
           [UInputWrite "keyboard" 1 30 0; UInputSyn "keyboard";
            SubNotify B_down tt false];
         NotifyCall B_up false (Ok true) [SubNotify B_up tt false];
         NotifyCall A_up false (Ok true) []].
Proof.
  apply (two_key_scenario (answering true) sub_reset cfg_A cfg_B
           "keyboard" 0%nat tt).
  - reflexivity.
  - vm_compute. discriminate.
  - reflexivity.
  - reflexivity.
  - reflexivity.
Defined.

(** C1, amended, at work: the single-key handler absorbs [A] down, then [A]
    up arrives; the two-key handler let [A] down through and owes the
    release. *)
Lemma release_balance_witness :
  (_requires_a_release active_A !! (1, 30) = Some false
   ∧ Forall (λ c, release_absorbed_not_emitted [130] (1, 30) c = true)
       (run (answering true) sub_reset [OpNotify A_up tt false] active_A).1)
  ∧ forwarded_press_pending [130; 148] (1, 30)
      (run (answering true) sub_reset [OpNotify A_down tt false] handler_AB).1
    = true
  ∧ _requires_a_release held_A !! (1, 30) = Some true.
Proof.
  split; [|split].
  - apply (proj1 (release_balance (answering true) sub_reset)
             handler_A A_down tt false active_A
             [SubNotify A_down tt false] [OpNotify A_up tt false]).
    + reflexivity.
    + vm_compute; reflexivity.
    + repeat constructor.
  - apply (proj2 (release_balance (answering true) sub_reset)
             [cfg_A; cfg_B] (Mapping.mk [cfg_A; cfg_B] true) 0%nat
             handler_AB [OpNotify A_down tt false] (1, 30)).
    + vm_compute; reflexivity.
    + vm_compute; reflexivity.
  - apply (proj2 (release_balance (answering true) sub_reset)
             [cfg_A; cfg_B] (Mapping.mk [cfg_A; cfg_B] true) 0%nat
             handler_AB [OpNotify A_down tt false] (1, 30)).
    + vm_compute; reflexivity.
    + repeat constructor.
    + vm_compute; reflexivity.
Defined.

(** Why (1) asks for no further press. [B] down is absorbed when it
    completes the combination. [A] is let go, then a second [B] down arrives
    without a [B] up in between and is let through; when [A] completes the
    combination again the handler writes a release of [B], and the [B] up
    that finally arrives is absorbed as well. *)
Lemma second_press_reopens_balance :
  (run (answering true) sub_reset
     [OpNotify A_down tt false; OpNotify B_down tt false;
      OpNotify A_up tt false; OpNotify B_down tt false;
      OpNotify A_down tt false; OpNotify B_up tt false] handler_AB).1
  = [NotifyCall A_down false (Ok false) [];
     NotifyCall B_down false (Ok true)
       [UInputWrite "keyboard" 1 30 0; UInputSyn "keyboard";
        SubNotify B_down tt false];
     NotifyCall A_up false (Ok true) [SubNotify A_up tt false];
     NotifyCall B_down false (Ok false) [];
     NotifyCall A_down false (Ok true)
       [UInputWrite "keyboard" 1 48 0; UInputSyn "keyboard";
        SubNotify A_down tt false];
     NotifyCall B_up false (Ok true) [SubNotify B_up tt false]].
Proof. by vm_compute. Qed.

(** Why the converse of (2) asks for calls without the [suppress] hint: a
    suppressed fresh activation lets the press through and records
    nothing. *)
Lemma suppressed_activation_records_nothing :
  let result :=
    run (answering true) sub_reset [OpNotify A_down tt true] handler_A in
  result.1 = [NotifyCall A_down true (Ok false) []]
  ∧ forwarded_press_pending [130] (1, 30) result.1 = true
  ∧ _requires_a_release result.2 !! (1, 30) = None.
Proof. by vm_compute. Qed.

(** C1 as stated fails. The single-key handler absorbs [A] down, so a
    suppressed press of [(1, 30)] is pending, with no release emitted or
    absorbed since; yet the entry of [(1, 30)] in the requires map is false,
    not true. *)
Lemma release_balance_counterexample :
  let log :=
    (run (answering true) sub_reset [OpNotify A_down tt false] handler_A).1 in
  let self :=
    (run (answering true) sub_reset [OpNotify A_down tt false] handler_A).2 in
  log = [NotifyCall A_down false (Ok true) [SubNotify A_down tt false]]
  ∧ suppressed_press_pending (_handled_input_hashes handler_A) (1, 30) log
    = true
  ∧ _requires_a_release self !! (1, 30) = Some false
  ∧ ¬ (_requires_a_release self !! (1, 30) = Some true
       ↔ suppressed_press_pending (_handled_input_hashes handler_A) (1, 30) log
         = true).
Proof.
  cbv zeta. split_and!; [by vm_compute..|].
  intros [_ Himp].
  assert (suppressed_press_pending (_handled_input_hashes handler_A) (1, 30)
            (run (answering true) sub_reset
               [OpNotify A_down tt false] handler_A).1 = true) as Hpending
    by (by vm_compute).
  specialize (Himp Hpending). vm_compute in Himp. discriminate Himp.
Qed.

(** C7 as stated fails. [A] down on the fresh single-key handler is an
    activation transition, but with [suppress = true] the sub-handler is not
    notified at all. *)
Lemma activation_transitions_counterexample :
  is_transition handler_A A_down = true
  ∧ sub_calls (notify (answering true) A_down tt true handler_A).2 = 0%nat
  ∧ sub_calls (notify (answering true) A_down tt true handler_A).2 ≠ 1%nat.
Proof. split_and!; [by vm_compute..|]. vm_compute. discriminate. Qed.

(** ** The further properties at work *)

(** X1 at work: a repeat of [A] on the active single-key handler. *)
Lemma notify_raises_on_other_values_witness :
  notify (answering true) A_repeat tt true active_A
  = (Raise AssertionError,
     mkHandler (mapping active_A) (<[130 := false]> (_pressed_keys active_A))
       true 2%nat (_handled_input_hashes active_A)
       (_requires_a_release active_A),
     [SubNotify A_repeat tt false]).
Proof.
  apply (proj2 (notify_raises_on_other_values (answering true) active_A
                  A_repeat tt true)).
  - apply (bool_decide_unpack _); vm_compute; exact I.
  - vm_compute; discriminate.
  - vm_compute; discriminate.
Defined.

(** X2 at work: the release that [B] down writes was owed. *)
Lemma notify_writes_only_releases_witness :
  _requires_a_release held_A !! (1, 30) = Some true.
Proof.
  apply (proj2 (notify_writes_only_releases (answering true) held_A
                  B_down tt false)).
  vm_compute; reflexivity.
Defined.

(** X4 at work. *)
Lemma run_keeps_shape_witness :
  dom (_pressed_keys (run (answering true) sub_reset some_calls handler_AB).2)
  = list_to_set (InputConfig.input_match_hash <$> [cfg_A; cfg_B])
  ∧ _handled_input_hashes
      (run (answering true) sub_reset some_calls handler_AB).2
    = InputConfig.input_match_hash <$> [cfg_A; cfg_B]
  ∧ mapping (run (answering true) sub_reset some_calls handler_AB).2
    = Mapping.mk [cfg_A; cfg_B] true.
Proof.
  apply (run_keeps_shape (answering true) sub_reset [cfg_A; cfg_B]
           (Mapping.mk [cfg_A; cfg_B] true) 0%nat handler_AB some_calls).
  vm_compute; reflexivity.
Defined.

(** X5 at work. *)
Lemma reset_restores_constructed_witness :
  (reset (Source := unit) sub_reset
     (run (answering true) sub_reset some_calls handler_AB).2).1.2
  = handler_AB.
Proof.
  rewrite (reset_restores_constructed (answering true) sub_reset
             [cfg_A; cfg_B] (Mapping.mk [cfg_A; cfg_B] true) 0%nat handler_AB
             some_calls ltac:(vm_compute; reflexivity)).
  reflexivity.
Defined.

(** X6 at work: after the calls of the scenario that hold no suppressed one,
    the flag is the state of the keys. *)
Lemma output_active_iff_all_pressed_witness :
  _output_previously_active
    (run (answering true) sub_reset rest_of_scenario handler_AB).2
  = all_pressed
      (_pressed_keys
         (run (answering true) sub_reset rest_of_scenario handler_AB).2).
Proof.
  apply (proj2 (output_active_iff_all_pressed (answering true) sub_reset
                  [cfg_A; cfg_B] (Mapping.mk [cfg_A; cfg_B] true) 0%nat
                  handler_AB rest_of_scenario
                  ltac:(vm_compute; reflexivity)
                  ltac:(apply (bool_decide_unpack _); vm_compute; exact I))).
  apply (bool_decide_unpack _); vm_compute; exact I.
Defined.

(** X7 at work: [A] down was let through; in the rest of the scenario its
    release reaches the system once, from the sweep of [B] down, and [A] up
    is absorbed. *)
Lemma forwarded_press_released_once_witness :
  releases_reaching_system [130; 148] (1, 30)
    (run (answering true) sub_reset rest_of_scenario held_A).1
  = 1%nat.
Proof.
  apply (proj2 (forwarded_press_released_once (answering true) sub_reset
                  handler_AB A_down tt held_A [] rest_of_scenario
                  ltac:(apply (bool_decide_unpack _); vm_compute; exact I)
                  ltac:(reflexivity)
                  ltac:(vm_compute; reflexivity)
                  ltac:(apply (bool_decide_unpack _); vm_compute; exact I)
                  ltac:(apply (bool_decide_unpack _); vm_compute; exact I))).
  apply (bool_decide_unpack _); vm_compute; exact I.
Defined.

End ScenarioFacts.
